(** * seismic-quality-map: the parsing, normalisation and load pipeline of
    [src/main.py], embedded in Rocq.

    Python [str] values are [string]s whose characters are code points
    below 256; lines of a file keep their terminator, as iterating over
    [open(doc)] yields them.  Regular expressions are run by a small
    greedy, backtracking matcher over the items the source's patterns
    are made of, so that each pattern is transcribed, not re-invented. *)

From Stdlib Require Import Bool Arith ZArith Lia List Ascii String.
Import ListNotations.
Open Scope string_scope.
Open Scope nat_scope.

(** ** Characters and character classes *)

Definition code (c : ascii) : nat := nat_of_ascii c.

(** [lo-hi] inside a character class. *)
Definition in_range (lo hi c : ascii) : bool :=
  (code lo <=? code c) && (code c <=? code hi).

(** [[a-zA-Z]] *)
Definition is_alpha (c : ascii) : bool :=
  in_range "a" "z" c || in_range "A" "Z" c.

(** [[0-9]] *)
Definition is_digit (c : ascii) : bool := in_range "0" "9" c.

(** [[_-]] *)
Definition is_sep (c : ascii) : bool := (c =? "_")%char || (c =? "-")%char.

(** [[=:]] *)
Definition is_assign (c : ascii) : bool := (c =? "=")%char || (c =? ":")%char.

Definition is_lower (c : ascii) : bool := in_range "a" "z" c.

(** [\s] of a [str] pattern: the characters Python holds to be white
    space (tab to carriage return, the four separators 28 to 31, space,
    NEL and the no-break space). *)
Definition is_space (c : ascii) : bool :=
  let n := code c in
  ((9 <=? n) && (n <=? 13)) || ((28 <=? n) && (n <=? 32))
  || (n =? 133) || (n =? 160).

(** [\w] of a [str] pattern: alphanumeric characters and the underscore. *)
Definition is_word (c : ascii) : bool :=
  let n := code c in
  is_alpha c || is_digit c || (c =? "_")%char
  || (n =? 170) || (n =? 178) || (n =? 179) || (n =? 181) || (n =? 185)
  || (n =? 186) || ((188 <=? n) && (n <=? 190))
  || ((192 <=? n) && (n <=? 214)) || ((216 <=? n) && (n <=? 246))
  || (248 <=? n).

(** [[\w-]] *)
Definition is_word_or_dash (c : ascii) : bool := is_word c || (c =? "-")%char.

(** The double quote character of the metadata pattern. *)
Definition dquote : ascii := ascii_of_nat 34.

Definition is_dquote (c : ascii) : bool := (c =? dquote)%char.

(** Simple lower-casing, which [re.I] compares literals by. *)
Definition lower_char (c : ascii) : ascii :=
  let n := code c in
  if in_range "A" "Z" c || ((192 <=? n) && (n <=? 222) && negb (n =? 215))
  then ascii_of_nat (n + 32) else c.

(** A literal of an escaped pattern under [re.I]. *)
Definition is_lit_nocase (p c : ascii) : bool :=
  (lower_char c =? lower_char p)%char.

(** [str.upper()] on one character.  The normalisers only ever upper-case
    text made of [[a-zA-Z]], [[0-9]] and ["-"], where this is the whole
    of what Python does. *)
Definition upper_char (c : ascii) : ascii :=
  if is_lower c then ascii_of_nat (code c - 32) else c.

(** ** Strings *)

Fixpoint upper (s : string) : string :=
  match s with
  | EmptyString => EmptyString
  | String c s' => String (upper_char c) (upper s')
  end.

Fixpoint all_of (cls : ascii -> bool) (s : string) : bool :=
  match s with
  | EmptyString => true
  | String c s' => cls c && all_of cls s'
  end.

(** Does the text begin with a character of the class? *)
Definition starts_with (cls : ascii -> bool) (s : string) : bool :=
  match s with
  | EmptyString => false
  | String c _ => cls c
  end.

Definition is_empty (s : string) : bool :=
  match s with EmptyString => true | _ => false end.

(** [s[:n]] *)
Fixpoint take (n : nat) (s : string) : string :=
  match n, s with
  | S n', String c s' => String c (take n' s')
  | _, _ => EmptyString
  end.

(** [s[n:]] *)
Fixpoint drop (n : nat) (s : string) : string :=
  match n, s with
  | S n', String _ s' => drop n' s'
  | _, _ => s
  end.

(** [s[-1]], when there is one. *)
Fixpoint last_char (s : string) : option ascii :=
  match s with
  | EmptyString => None
  | String c EmptyString => Some c
  | String _ s' => last_char s'
  end.

(** [s[:-1]] *)
Fixpoint but_last (s : string) : string :=
  match s with
  | EmptyString => EmptyString
  | String _ EmptyString => EmptyString
  | String c s' => String c (but_last s')
  end.

(** ** A greedy backtracking matcher

    The patterns of the source are sequences of repeated character classes,
    capture parentheses and the anchor [^].  [Rep cls lo hi] is
    [cls{lo,hi}], greedy; [hi = None] leaves it unbounded. *)

Inductive re_item : Type :=
| Bol
| Rep (cls : ascii -> bool) (lo : nat) (hi : option nat)
| GroupOpen
| GroupClose.

Definition plus (cls : ascii -> bool) : re_item := Rep cls 1 None.
Definition star (cls : ascii -> bool) : re_item := Rep cls 0 None.
Definition opt (cls : ascii -> bool) : re_item := Rep cls 0 (Some 1).
Definition one (cls : ascii -> bool) : re_item := Rep cls 1 (Some 1).

(** How many characters a greedy repetition can take at most here. *)
Fixpoint run_length (cls : ascii -> bool) (hi : option nat) (s : string) : nat :=
  match s with
  | EmptyString => 0
  | String c s' =>
      if cls c then
        match hi with
        | None => S (run_length cls None s')
        | Some 0 => 0
        | Some (S h) => S (run_length cls (Some h) s')
        end
      else 0
  end.

Section Backtracking.
Context {A : Type}.
Variable k : nat -> option A.

(** Try the continuation [k] with [n] repetitions, then [n - 1], down to
    [lo]: the first success wins. *)
Fixpoint try_down (lo n : nat) : option A :=
  if n <? lo then None
  else match k n with
       | Some r => Some r
       | None => match n with
                 | O => None
                 | S n' => try_down lo n'
                 end
       end.

End Backtracking.

(** A match object, as far as the source reads one: the captured groups
    and the text left after the match. *)
Definition re_result : Type := (list string * string)%type.

Definition capture (cur : option string) (taken : string) : option string :=
  match cur with
  | Some g => Some (g ++ taken)
  | None => None
  end.

Definition close_group (cur : option string) : string :=
  match cur with
  | Some g => g
  | None => EmptyString
  end.

(** Match [items] against [s], which stands at offset [pos] of the
    subject; [cur] is the group being captured, [done] the closed ones. *)
Fixpoint re_match (items : list re_item) (pos : nat) (cur : option string)
  (done : list string) (s : string) : option re_result :=
  match items with
  | [] => Some (done, s)
  | Bol :: k => if pos =? 0 then re_match k pos cur done s else None
  | GroupOpen :: k => re_match k pos (Some EmptyString) done s
  | GroupClose :: k => re_match k pos None (done ++ [close_group cur]) s
  | Rep cls lo hi :: k =>
      try_down
        (fun n => re_match k (pos + n) (capture cur (take n s)) done (drop n s))
        lo (run_length cls hi s)
  end.

(** The match at the least offset, from offset [pos] on, with the
    offset it starts at. *)
Fixpoint re_search_from (items : list re_item) (pos : nat) (s : string)
  : option (nat * re_result) :=
  match re_match items pos None [] s with
  | Some r => Some (pos, r)
  | None =>
      match s with
      | EmptyString => None
      | String _ s' => re_search_from items (S pos) s'
      end
  end.

(** [pattern.search(s)] *)
Definition re_search (items : list re_item) (s : string) : option re_result :=
  option_map snd (re_search_from items 0 s).

(** [re.finditer(pattern, s)], for a pattern that matches no empty
    text: each match is searched for from the end of the one before.
    There are no more matches than characters, which [fuel] counts. *)
Fixpoint re_finditer (fuel : nat) (items : list re_item) (pos : nat)
  (s : string) : list (nat * re_result) :=
  match fuel with
  | O => []
  | S fuel' =>
      match re_search_from items pos s with
      | None => []
      | Some (start, (groups, rest)) =>
          (start, (groups, rest))
          :: re_finditer fuel' items (pos + (length s - length rest)) rest
      end
  end.

(** ** NameNormalizer *)

(** ['19' + ano if len(ano) == 2 else ano] *)
Definition _chano (ano : string) : string :=
  if length ano =? 2 then "19" ++ ano else ano.

(** [^([a-zA-Z]+)[_-]*([0-9]+)[_-]+([0-9]+)] *)
Definition pline : list re_item :=
  [Bol; GroupOpen; plus is_alpha; GroupClose; star is_sep;
   GroupOpen; plus is_digit; GroupClose; plus is_sep;
   GroupOpen; plus is_digit; GroupClose].

(** [^([a-zA-Z]+)[_-]+([0-9]+)] *)
Definition parea : list re_item :=
  [Bol; GroupOpen; plus is_alpha; GroupClose; plus is_sep;
   GroupOpen; plus is_digit; GroupClose].

(** When the pattern does not match, [search] gives [None], [.groups()]
    raises and the [except] branch prints the error and falls off the end
    of the function: the caller receives [None]. *)
Definition normNameLine (name : string) : option string :=
  match re_search pline name with
  | Some ([name; ano; num], _) =>
      Some (upper (name ++ "-" ++ _chano ano ++ "-" ++ num))
  | _ => None
  end.

Definition normNameArea (name : string) : option string :=
  match re_search parea name with
  | Some ([name; ano], _) => Some (upper (name ++ "-" ++ ano))
  | _ => None
  end.

(** The line terminator. *)
Definition newline : string := String (ascii_of_nat 10) EmptyString.

(** A text between double quotes. *)
Definition quoted (s : string) : string :=
  String dquote EmptyString ++ s ++ String dquote EmptyString.

(** ** Outcomes of a call

    A Python call either returns a value ([None] is [option]'s [None])
    or leaves by an exception. *)

Inductive exn : Type := TypeError | IndexError | UnboundLocalError.

Inductive outcome (A : Type) : Type :=
| Returns (v : A)
| Raises (e : exn).

Arguments Returns {A} v.
Arguments Raises {A} e.

Definition bind {A B : Type} (m : outcome A) (f : A -> outcome B) : outcome B :=
  match m with
  | Returns v => f v
  | Raises e => Raises e
  end.

Notation "x <- m ;; f" := (bind m (fun x => f))
  (at level 61, m at next level, right associativity).

(** A comprehension or [map] whose body may raise: the first exception
    leaves it. *)
Fixpoint map_outcome {A B : Type} (f : A -> outcome B) (l : list A)
  : outcome (list B) :=
  match l with
  | [] => Returns []
  | x :: l' => y <- f x ;; ys <- map_outcome f l' ;; Returns (y :: ys)
  end.

Definition signals_failure {A : Type} (r : outcome A) : Prop :=
  match r with
  | Raises _ => True
  | Returns _ => False
  end.

(** ** HeaderLocator *)

(** [r[:len(mark)] == mark] *)
Definition marked (mark r : string) : bool :=
  String.eqb (take (length mark) r) mark.

(** The loop of [_skiprows_header_after] over the lines still to read;
    [n] is the index [enumerate] gives the next line. *)
Fixpoint _skiprows_header_after_loop (mark : string) (return_next : bool)
  (n : nat) (lines : list string) : outcome (option (nat * string)) :=
  match lines with
  | [] => Returns None
  | r :: rest =>
      if return_next then Returns (Some (n, r))
      else if marked mark r
           then _skiprows_header_after_loop mark true (S n) rest
           else _skiprows_header_after_loop mark return_next (S n) rest
  end.

Definition _skiprows_header_after (doc : list string) (mark : string)
  : outcome (option (nat * string)) :=
  _skiprows_header_after_loop mark false 0 doc.

(** The loop of [_skiprows_header_before]; [rold] is unbound until a
    first line has been read. *)
Fixpoint _skiprows_header_before_loop (mark : string) (rold : option string)
  (n : nat) (lines : list string) : outcome (option (nat * string)) :=
  match lines with
  | [] => Returns None
  | r :: rest =>
      if marked mark r then
        match rold with
        | Some h => Returns (Some (n, h))
        | None => Raises UnboundLocalError
        end
      else _skiprows_header_before_loop mark (Some r) (S n) rest
  end.

Definition _skiprows_header_before (doc : list string) (mark : string)
  : outcome (option (nat * string)) :=
  _skiprows_header_before_loop mark None 0 doc.

(** ** FixedWidthTableParser *)

(** [[m.start() for m in re.finditer(r'\s+', header)]] *)
Definition whitespace_starts (header : string) : list Z :=
  map (fun m => Z.of_nat (fst m))
      (re_finditer (length header) [plus is_space] 0 header).

(** [[t-s for s, t in zip(w, w[1:])]] *)
Definition differences (w : list Z) : list Z :=
  map (fun st => (snd st - fst st)%Z) (combine w (tl w)).

(** The widths computed from the header line alone. *)
Definition header_widths (header : string) : outcome (list Z) :=
  let w := whitespace_starts header in
  let w := differences w in
  match w with
  | [] => Raises IndexError
  | w0 :: ws => Returns ((w0 + 1)%Z :: ws)
  end.

(** Unpacking the locator's [None] into two names is a [TypeError]. *)
Definition _widths_skiprows (doc : list string) : outcome (list Z * nat) :=
  found <- _skiprows_header_after doc "<<" ;;
  match found with
  | None => Raises TypeError
  | Some (skiprows, header) =>
      w <- header_widths header ;; Returns (w, skiprows)
  end.

Definition sum_widths (w : list Z) : Z := fold_right Z.add 0%Z w.

(** The line without its trailing white space, terminator included. *)
Fixpoint rstrip (s : string) : string :=
  match s with
  | EmptyString => EmptyString
  | String c s' =>
      if all_of is_space s then EmptyString else String c (rstrip s')
  end.

(** ** MetadataExtractor *)

(** [re.escape(target)] under [re.I]: each character of the key, as a
    caseless literal. *)
Fixpoint escaped (target : string) : list re_item :=
  match target with
  | EmptyString => []
  | String p t => one (is_lit_nocase p) :: escaped t
  end.

(** [re.escape(target) + r'\s*[=:]\s*\q?([\w-]+)\q?'], where [\q] is
    the double quote. *)
Definition ptarget (target : string) : list re_item :=
  (escaped target ++
   [star is_space; one is_assign; star is_space; opt is_dquote;
    GroupOpen; plus is_word_or_dash; GroupClose; opt is_dquote])%list.

(** [result.group(1)] of a search in one line. *)
Definition meta_in_line (target line : string) : option string :=
  match re_search (ptarget target) line with
  | Some (g :: _, _) => Some g
  | _ => None
  end.

Fixpoint promax2meta (doc : list string) (target : string) : option string :=
  match doc with
  | [] => None
  | line :: rest =>
      match meta_in_line target line with
      | Some v => Some v
      | None => promax2meta rest target
      end
  end.

(** The key as it may stand in a line: character by character the
    target, up to case. *)
Fixpoint caseless (target key : string) : bool :=
  match target, key with
  | EmptyString, EmptyString => true
  | String p t, String c k => is_lit_nocase p c && caseless t k
  | _, _ => false
  end.

(** ** SchemaInferer *)

Inductive dtype : Type := float64 | int64 | object_dtype | other_dtype.

(** A type the three tests do not name falls through: [None]. *)
Definition _chtype (x : dtype) : option string :=
  match x with
  | float64 => Some "double"
  | int64 => Some "int"
  | object_dtype => Some "text"
  | other_dtype => None
  end.

(** [x[-1] == '*']; [x[-1]] of an empty name is an [IndexError]. *)
Definition ends_with_star (x : string) : outcome bool :=
  match last_char x with
  | None => Raises IndexError
  | Some c => Returns (c =? "*")%char
  end.

(** [x[:-1] if x[-1] == '*' else x] *)
Definition _chname (x : string) : outcome string :=
  star <- ends_with_star x ;; Returns (if star then but_last x else x).

(** What [cols] reads of a DataFrame: the name and type of its index,
    and the names and types of its columns, in order. *)
Record DataFrame : Type := {
  index_name : option string;
  index_dtype : dtype;
  columns : list (string * dtype)
}.

Definition column_spec : Type := (string * option string * string)%type.

Definition spec_name (s : column_spec) : string := fst (fst s).
Definition spec_type (s : column_spec) : option string := snd (fst s).
Definition spec_props (s : column_spec) : string := snd s.

(** ['PRIMARY KEY' if x[-1] == '*' else ''] *)
Definition primary_flag (x : string) : outcome string :=
  star <- ends_with_star x ;; Returns (if star then "PRIMARY KEY" else "").

(** The index comes first and is primary whatever its name; a missing
    index name is [None], which [_chname] cannot subscript. *)
Definition cols (df : DataFrame) : outcome (list column_spec) :=
  let c := map fst (columns df) in
  let t := map _chtype (map snd (columns df)) in
  p <- map_outcome primary_flag c ;;
  c <- map_outcome _chname c ;;
  i <- match index_name df with
       | None => Raises TypeError
       | Some x => _chname x
       end ;;
  Returns (combine (combine (i :: c) (_chtype (index_dtype df) :: t))
                   ("PRIMARY KEY" :: p)).

(** [[c for c, t, p in ctp if p == 'PRIMARY KEY']] of [to_access]. *)
Definition primary_keys (ctp : list column_spec) : list string :=
  map spec_name (filter (fun s => String.eqb (spec_props s) "PRIMARY KEY") ctp).

(** Does the name carry the marker, and the name without it. *)
Definition has_marker (x : string) : bool :=
  match last_char x with
  | Some c => (c =? "*")%char
  | None => false
  end.

Definition without_marker (x : string) : string :=
  if has_marker x then but_last x else x.

(** The specification of one column, as [cols] emits it. *)
Definition column_spec_of (xd : string * dtype) : column_spec :=
  (without_marker (fst xd), _chtype (snd xd),
   if has_marker (fst xd) then "PRIMARY KEY" else "").

(** ** TableLoader

    The relational store is reached through [cursor.execute] alone.  A
    table is the list of the rows it holds; its primary key is a
    function of the row. *)

Section Loader.
Variables row key index : Type.
Variable primary_key : row -> key.
Variable key_eq_dec : forall a b : key, {a = b} + {a <> b}.
(** [row[0]], the value of the index column. *)
Variable index_value : row -> index.

Inductive exec_result : Type :=
| Committed (tbl : list row)
| IntegrityError
| OtherError.

(** A store that enforces the declared primary key: an insert whose key
    is already in the table is refused, any other appends its row. *)
Definition stored (tbl : list row) (k : key) : bool :=
  existsb (fun r => if key_eq_dec (primary_key r) k then true else false) tbl.

Definition keyed_insert (tbl : list row) (r : row) : exec_result :=
  if stored tbl (primary_key r) then IntegrityError
  else Committed (tbl ++ [r]).

(** What the loop did with one row. *)
Inductive step : Type :=
| Inserted (r : row)
| Skipped (r : row) (column : string) (value : index).

Definition step_row (s : step) : row :=
  match s with
  | Inserted r => r
  | Skipped r _ _ => r
  end.

Record load : Type := {
  trace : list step;
  table : list row;
  aborted : bool
}.

Variable execute : list row -> row -> exec_result.

(** The insertion loop of [to_access]: [c0] is the first column name,
    [done] the steps taken so far. *)
Fixpoint to_access_loop (c0 : string) (rows : list row) (tbl : list row)
  (done : list step) : load :=
  match rows with
  | [] => {| trace := done; table := tbl; aborted := false |}
  | r :: rest =>
      match execute tbl r with
      | Committed tbl' => to_access_loop c0 rest tbl' (done ++ [Inserted r])
      | IntegrityError =>
          to_access_loop c0 rest tbl (done ++ [Skipped r c0 (index_value r)])
      | OtherError => {| trace := done; table := tbl; aborted := true |}
      end
  end.

End Loader.

Arguments Committed {row} tbl.
Arguments IntegrityError {row}.
Arguments OtherError {row}.
Arguments Inserted {row index} r.
Arguments Skipped {row index} r column value.
Arguments step_row {row index} s.
Arguments trace {row index} l.
Arguments table {row index} l.
Arguments aborted {row index} l.
Arguments stored {row key} primary_key key_eq_dec tbl k.
Arguments keyed_insert {row key} primary_key key_eq_dec tbl r.
Arguments to_access_loop {row index} index_value execute c0 rows tbl done.

(** The loop of [to_access] against a table whose primary key is
    enforced, from an empty trace. *)
Definition to_access_rows {row key index : Type} (primary_key : row -> key)
  (key_eq_dec : forall a b : key, {a = b} + {a <> b})
  (index_value : row -> index) (c0 : string) (rows tbl : list row)
  : load row index :=
  to_access_loop index_value (keyed_insert primary_key key_eq_dec) c0 rows tbl [].

(** ** The greedy reading of the patterns

    In [pline] and [parea] every repetition is followed by a class
    disjoint from its own, so no shorter repetition can ever succeed:
    the match, when there is one, is made of maximal runs.  [stuck]
    is the test behind that: the items cannot even begin at this text. *)

Fixpoint stuck (items : list re_item) (s : string) : bool :=
  match items with
  | [] => false
  | Rep cls lo _ :: k =>
      negb (starts_with cls s)
      && match lo with
         | O => stuck k s
         | S _ => true
         end
  | _ :: k => stuck k s
  end.

(** The maximal run of [cls] at the head of [s], and what follows it;
    nothing when the run is shorter than [lo]. *)
Definition greedy (cls : ascii -> bool) (lo : nat) (s : string)
  : option (string * string) :=
  let n := run_length cls None s in
  if n <? lo then None else Some (take n s, drop n s).

Definition pline_greedy (s : string) : option re_result :=
  match greedy is_alpha 1 s with
  | None => None
  | Some (name, s1) =>
  match greedy is_sep 0 s1 with
  | None => None
  | Some (_, s2) =>
  match greedy is_digit 1 s2 with
  | None => None
  | Some (ano, s3) =>
  match greedy is_sep 1 s3 with
  | None => None
  | Some (_, s4) =>
  match greedy is_digit 1 s4 with
  | None => None
  | Some (num, s5) => Some ([name; ano; num], s5)
  end end end end end.

Definition parea_greedy (s : string) : option re_result :=
  match greedy is_alpha 1 s with
  | None => None
  | Some (name, s1) =>
  match greedy is_sep 1 s1 with
  | None => None
  | Some (_, s2) =>
  match greedy is_digit 1 s2 with
  | None => None
  | Some (ano, s3) => Some ([name; ano], s3)
  end end end.

(** The offsets at which a maximal run of white space begins, read off
    in one pass; [in_run] says that the character before [pos] was
    white space. *)
Fixpoint ws_run_starts (in_run : bool) (pos : Z) (s : string) : list Z :=
  match s with
  | EmptyString => []
  | String c s' =>
      if is_space c then
        if in_run then ws_run_starts true (pos + 1) s'
        else pos :: ws_run_starts true (pos + 1) s'
      else ws_run_starts false (pos + 1) s'
  end.

(** ** Shapes of names

    The texts the normalisers are specified on, and the canonical
    identifiers they are specified to give. *)

Definition letters (s : string) : Prop :=
  all_of is_alpha s = true /\ is_empty s = false.

Definition digits (s : string) : Prop :=
  all_of is_digit s = true /\ is_empty s = false.

Definition seps (s : string) : Prop := all_of is_sep s = true.

(** [letters [sep] digits [sep+] digits] *)
Definition line_shaped (name s1 ano s2 num : string) : Prop :=
  letters name /\ seps s1 /\ digits ano
  /\ seps s2 /\ is_empty s2 = false /\ digits num.

(** [letters [sep+] digits] *)
Definition area_shaped (name s1 ano : string) : Prop :=
  letters name /\ seps s1 /\ is_empty s1 = false /\ digits ano.

Definition upper_letters (s : string) : Prop :=
  all_of (in_range "A" "Z") s = true /\ is_empty s = false.

(** [NAME-YEAR-NUMBER] *)
Definition canonical_line (y name year num : string) : Prop :=
  y = name ++ "-" ++ year ++ "-" ++ num
  /\ upper_letters name /\ digits year /\ digits num.

(** [NAME-YEAR] *)
Definition canonical_area (y name year : string) : Prop :=
  y = name ++ "-" ++ year /\ upper_letters name /\ digits year.

(** The maximal run of a class at the head of a text, and the rest. *)
Definition leading (cls : ascii -> bool) (s : string) : string :=
  take (run_length cls None s) s.

Definition after_leading (cls : ascii -> bool) (s : string) : string :=
  drop (run_length cls None s) s.

(** ** MetadataExtractor, from a table

    What [targetInCol] reads of a DataFrame: the column names, and the
    first row, when there is one, as the values under those names. *)

Record Frame (V : Type) : Type := {
  frame_columns : list string;
  frame_iloc0 : option (list V)
}.

Arguments frame_columns {V} f.
Arguments frame_iloc0 {V} f.

(** [re.search(r'' + re.escape(target), x, re.I)], as [if] reads it. *)
Definition name_has (target x : string) : bool :=
  match re_search (escaped target) x with
  | Some _ => true
  | None => false
  end.

(** [[i for i, x in enumerate(c) if re.search(ptarget, x, re.I)]] *)
Fixpoint matching_columns (target : string) (n : nat) (c : list string)
  : list nat :=
  match c with
  | [] => []
  | x :: c' =>
      if name_has target x then n :: matching_columns target (S n) c'
      else matching_columns target (S n) c'
  end.

(** [df.iloc[0][i[0]] if i else None]: the first row is only read when a
    column matches, and reading it from a table without rows is an
    [IndexError].  The row is labelled by the column names, and an
    integer key reads it by position, as pandas did before its
    version 3. *)
Definition targetInCol {V : Type} (df : Frame V) (target : string)
  : outcome (option V) :=
  let c := frame_columns df in
  let i := matching_columns target 0 c in
  match i with
  | [] => Returns None
  | i0 :: _ =>
      match frame_iloc0 df with
      | None => Raises IndexError
      | Some row =>
          match nth_error row i0 with
          | Some v => Returns (Some v)
          | None => Raises IndexError
          end
      end
  end.

(** The caseless key stands somewhere in the name. *)
Definition contains_caseless (target x : string) : Prop :=
  exists before key after,
    x = before ++ key ++ after /\ caseless target key = true.

(** ** TableLoader, before the store is reached

    What [to_access] computes from the table before it opens a
    connection: the column names, the field definitions, the primary
    keys, the table name and the text of the insertion. *)

(** [c + ' ' + t]: a type that is [None] cannot be concatenated. *)
Definition field_of (s : column_spec) : outcome string :=
  match spec_type s with
  | Some t => Returns (spec_name s ++ " " ++ t)
  | None => Raises TypeError
  end.

Record statements : Type := {
  st_columns : list string;
  st_fields : list string;
  st_primary_keys : list string;
  st_table : string;
  st_create : string;
  st_add_keys : string;
  st_insert : string
}.

(** [c[0] if not tableName else tableName]: no name and the empty name
    both fall back on the first column. *)
Definition table_name (c : list string) (tableName : option string)
  : outcome string :=
  match tableName with
  | Some t =>
      if is_empty t
      then match c with c0 :: _ => Returns c0 | [] => Raises IndexError end
      else Returns t
  | None => match c with c0 :: _ => Returns c0 | [] => Raises IndexError end
  end.

Definition to_access_statements (df : DataFrame) (tableName : option string)
  : outcome statements :=
  ctp <- cols df ;;
  let c := map spec_name ctp in
  fields <- map_outcome field_of ctp ;;
  let pk := primary_keys ctp in
  tableName <- table_name c tableName ;;
  Returns {|
    st_columns := c;
    st_fields := fields;
    st_primary_keys := pk;
    st_table := tableName;
    st_create :=
      "CREATE TABLE " ++ tableName ++ "(" ++ concat "," fields ++ ")";
    st_add_keys :=
      "ALTER TABLE " ++ tableName ++ " ADD PRIMARY KEY ("
      ++ concat "," pk ++ ")";
    st_insert :=
      "INSERT INTO " ++ tableName ++ "(" ++ concat "," c ++ ") VALUES ("
      ++ concat "," (repeat "?" (List.length c)) ++ ")"
  |}.

(** Characters of the ASCII range, where [upper] is all of
    [str.upper()]. *)
Definition is_ascii (c : ascii) : bool := code c <? 128.

(** * Properties *)

(** ** Character classes *)

Ltac ascii_cases c := destruct c as [[] [] [] [] [] [] [] []].

Ltac by_ascii_cases c :=
  ascii_cases c; vm_compute; intros; try reflexivity; try discriminate.

Lemma alpha_not_sep c : is_alpha c = true -> is_sep c = false.
Proof. by_ascii_cases c. Qed.

Lemma alpha_not_digit c : is_alpha c = true -> is_digit c = false.
Proof. by_ascii_cases c. Qed.

Lemma sep_not_digit c : is_sep c = true -> is_digit c = false.
Proof. by_ascii_cases c. Qed.

Lemma sep_not_alpha c : is_sep c = true -> is_alpha c = false.
Proof. by_ascii_cases c. Qed.

Lemma digit_not_sep c : is_digit c = true -> is_sep c = false.
Proof. by_ascii_cases c. Qed.

Lemma digit_not_alpha c : is_digit c = true -> is_alpha c = false.
Proof. by_ascii_cases c. Qed.

Lemma upper_char_idem c : upper_char (upper_char c) = upper_char c.
Proof. by_ascii_cases c. Qed.

Lemma upper_char_alpha c : is_alpha c = true -> is_alpha (upper_char c) = true.
Proof. by_ascii_cases c. Qed.

Lemma upper_char_digit c : is_digit c = true -> upper_char c = c.
Proof. by_ascii_cases c. Qed.

Create HintDb classes.

#[local] Hint Resolve alpha_not_sep alpha_not_digit sep_not_digit sep_not_alpha
  digit_not_sep digit_not_alpha : classes.

(** ** Strings *)

Lemma append_empty_r s : s ++ "" = s.
Proof. induction s as [|c s IH]; simpl; [reflexivity | now rewrite IH]. Qed.

Lemma append_assoc a b c : (a ++ b) ++ c = a ++ (b ++ c).
Proof. induction a as [|x a IH]; simpl; [reflexivity | now rewrite IH]. Qed.

Lemma length_append a b : length (a ++ b) = length a + length b.
Proof. induction a as [|x a IH]; simpl; [reflexivity | now rewrite IH]. Qed.

Lemma upper_append a b : upper (a ++ b) = upper a ++ upper b.
Proof. induction a as [|x a IH]; simpl; [reflexivity | now rewrite IH]. Qed.

Lemma upper_idem s : upper (upper s) = upper s.
Proof.
  induction s as [|c s IH]; simpl; [reflexivity|].
  now rewrite upper_char_idem, IH.
Qed.

Lemma upper_digits s : all_of is_digit s = true -> upper s = s.
Proof.
  induction s as [|c s IH]; simpl; [reflexivity|].
  intros H. apply andb_true_iff in H as [Hc Hs].
  now rewrite (upper_char_digit c Hc), (IH Hs).
Qed.

Lemma all_of_append cls a b :
  all_of cls (a ++ b) = all_of cls a && all_of cls b.
Proof.
  induction a as [|x a IH]; simpl; [reflexivity|].
  now rewrite IH, andb_assoc.
Qed.

Lemma is_empty_length s : is_empty s = false <-> 1 <= length s.
Proof. destruct s; simpl; split; intros; try lia; congruence. Qed.

Lemma is_empty_upper s : is_empty (upper s) = is_empty s.
Proof. now destruct s. Qed.

Lemma starts_with_append cls a b :
  starts_with cls (a ++ b) = if is_empty a then starts_with cls b else starts_with cls a.
Proof. now destruct a. Qed.

(** A text made of one class does not begin with a character of a
    class disjoint from it. *)
Lemma starts_with_other cls cls' a :
  (forall c, cls' c = true -> cls c = false) ->
  all_of cls' a = true -> starts_with cls a = false.
Proof.
  intros Hd. destruct a as [|c a]; simpl; [reflexivity|].
  intros H. apply andb_true_iff in H as [Hc _]. now apply Hd.
Qed.

Lemma take_drop n s : take n s ++ drop n s = s.
Proof.
  revert s. induction n as [|n IH]; intros [|c s]; simpl; try reflexivity.
  now rewrite IH.
Qed.

(** ** Maximal runs *)

Lemma length_take_run cls s :
  length (take (run_length cls None s) s) = run_length cls None s.
Proof.
  induction s as [|c s IH]; simpl; [reflexivity|].
  destruct (cls c); simpl; [now rewrite IH | reflexivity].
Qed.

Lemma all_of_take_run cls s :
  all_of cls (take (run_length cls None s) s) = true.
Proof.
  induction s as [|c s IH]; simpl; [reflexivity|].
  destruct (cls c) eqn:Hc; simpl; [now rewrite Hc, IH | reflexivity].
Qed.

Lemma starts_with_drop_run cls s :
  starts_with cls (drop (run_length cls None s) s) = false.
Proof.
  induction s as [|c s IH]; simpl; [reflexivity|].
  destruct (cls c) eqn:Hc; simpl; [exact IH | exact Hc].
Qed.

(** Inside the run, the text still begins with a character of the class. *)
Lemma drop_inside_run cls hi s m :
  m < run_length cls hi s ->
  exists c s', drop m s = String c s' /\ cls c = true.
Proof.
  revert hi m. induction s as [|c s IH]; intros hi m; simpl; [lia|].
  destruct (cls c) eqn:Hc; [|lia].
  destruct m as [|m]; [intros _; now exists c, s|].
  destruct hi as [[|h]|]; simpl; intros Hm; try lia.
  - apply (IH (Some h)). lia.
  - apply (IH None). lia.
Qed.

Lemma run_length_append cls a b :
  all_of cls a = true -> starts_with cls b = false ->
  run_length cls None (a ++ b) = length a.
Proof.
  intros Ha Hb. induction a as [|c a IH]; simpl in *.
  - destruct b as [|c b]; simpl in *; [reflexivity | now rewrite Hb].
  - apply andb_true_iff in Ha as [Hc Ha]. now rewrite Hc, IH.
Qed.

Lemma take_length_append a b : take (length a) (a ++ b) = a.
Proof.
  induction a as [|c a IH]; simpl; [now destruct b | now rewrite IH].
Qed.

Lemma drop_length_append a b : drop (length a) (a ++ b) = b.
Proof. induction a as [|c a IH]; simpl; [now destruct b | exact IH]. Qed.

Lemma greedy_append cls lo a b :
  all_of cls a = true -> starts_with cls b = false -> lo <= length a ->
  greedy cls lo (a ++ b) = Some (a, b).
Proof.
  intros Ha Hb Hlo. unfold greedy.
  rewrite (run_length_append cls a b Ha Hb).
  rewrite take_length_append, drop_length_append.
  destruct (length a <? lo) eqn:E; [apply Nat.ltb_lt in E; lia | reflexivity].
Qed.

Lemma greedy_inv cls lo s a b :
  greedy cls lo s = Some (a, b) ->
  s = a ++ b /\ all_of cls a = true /\ starts_with cls b = false
  /\ lo <= length a.
Proof.
  unfold greedy. destruct (run_length cls None s <? lo) eqn:E; [discriminate|].
  intros H. injection H as <- <-. apply Nat.ltb_ge in E.
  rewrite take_drop, all_of_take_run, starts_with_drop_run, length_take_run.
  auto.
Qed.

(** ** The matcher *)

Section TryDown.
Context {A : Type}.
Variable k : nat -> option A.

(** When no shorter repetition can succeed, the longest one decides. *)
Lemma try_down_longest lo n :
  (forall m, lo <= m < n -> k m = None) ->
  try_down k lo n = if n <? lo then None else k n.
Proof.
  induction n as [|n IH]; intros Hk; simpl.
  - destruct (0 <? lo); [reflexivity | now destruct (k 0)].
  - destruct (S n <? lo) eqn:E; [reflexivity|].
    destruct (k (S n)) as [r|]; [reflexivity|].
    rewrite IH by (intros m Hm; apply Hk; lia).
    destruct (n <? lo) eqn:E'; [reflexivity|].
    apply Hk. apply Nat.ltb_ge in E'. lia.
Qed.

(** When the longest repetition succeeds, it is the match. *)
Lemma try_down_success lo n :
  ((n <? lo) = false -> k n <> None) ->
  try_down k lo n = if n <? lo then None else k n.
Proof.
  intros Hk. destruct n as [|n]; simpl.
  - destruct (0 <? lo); [reflexivity | now destruct (k 0)].
  - destruct (S n <? lo); [reflexivity|].
    destruct (k (S n)); [reflexivity | now elim Hk].
Qed.

End TryDown.

Lemma run_length_stuck cls hi s :
  starts_with cls s = false -> run_length cls hi s = 0.
Proof. destruct s as [|c s]; simpl; [reflexivity | now intros ->]. Qed.

Lemma re_match_stuck items : forall pos cur done s,
  stuck items s = true -> re_match items pos cur done s = None.
Proof.
  induction items as [|[|cls lo hi| |] k IH]; intros pos cur done s; simpl.
  - discriminate.
  - intros H. destruct (pos =? 0); [now apply IH | reflexivity].
  - intros H. apply andb_true_iff in H as [Hs Hk].
    apply negb_true_iff in Hs. rewrite (run_length_stuck cls hi s Hs).
    destruct lo as [|lo]; simpl; [|reflexivity].
    now rewrite IH.
  - apply IH.
  - apply IH.
Qed.

(** A repetition whose characters cannot begin what follows it takes
    its maximal run or fails. *)
Lemma re_match_rep_greedy cls lo k pos cur done s :
  (forall c s', cls c = true -> stuck k (String c s') = true) ->
  re_match (Rep cls lo None :: k) pos cur done s =
  match greedy cls lo s with
  | None => None
  | Some (g, s') => re_match k (pos + length g) (capture cur g) done s'
  end.
Proof.
  intros Hk. simpl. rewrite try_down_longest.
  - unfold greedy. destruct (run_length cls None s <? lo); [reflexivity|].
    now rewrite length_take_run.
  - intros m [_ Hm].
    destruct (drop_inside_run cls None s m Hm) as (c & s' & -> & Hc).
    apply re_match_stuck. now apply Hk.
Qed.

(** A repetition followed by items that always match takes its maximal
    run as well. *)
Lemma re_match_rep_last cls lo k pos cur done s :
  (forall pos cur done s, re_match k pos cur done s <> None) ->
  re_match (Rep cls lo None :: k) pos cur done s =
  match greedy cls lo s with
  | None => None
  | Some (g, s') => re_match k (pos + length g) (capture cur g) done s'
  end.
Proof.
  intros Hk. simpl. rewrite try_down_success by (intros _; apply Hk).
  unfold greedy. destruct (run_length cls None s <? lo); [reflexivity|].
  now rewrite length_take_run.
Qed.

(** An anchored pattern matches at the start of the subject or nowhere. *)
Lemma re_search_from_bol k pos s :
  0 < pos -> re_search_from (Bol :: k) pos s = None.
Proof.
  revert pos. induction s as [|c s IH]; intros pos Hpos; simpl;
    destruct (pos =? 0) eqn:E;
    try (apply Nat.eqb_eq in E; lia); try reflexivity.
  apply IH. lia.
Qed.

Lemma re_search_from_head items pos s r :
  re_match items pos None [] s = Some r ->
  re_search_from items pos s = Some (pos, r).
Proof. intros H. destruct s; simpl; now rewrite H. Qed.

Lemma re_search_bol k s :
  re_search (Bol :: k) s = re_match k 0 None [] s.
Proof.
  unfold re_search. destruct s as [|c s]; simpl;
    destruct (re_match k 0 None [] _); try reflexivity.
  rewrite re_search_from_bol; [reflexivity | lia].
Qed.

Lemma length_drop : forall n s, length (drop n s) = length s - n.
Proof.
  induction n as [|n IH]; intros [|c s]; simpl; try reflexivity.
  apply IH.
Qed.

Lemma run_length_le cls s : run_length cls None s <= length s.
Proof.
  induction s as [|c s IH]; simpl; [lia|]. destruct (cls c); lia.
Qed.

Lemma try_down_some {A : Type} (k : nat -> option A) lo r : forall n,
  try_down k lo n = Some r -> exists m, k m = Some r.
Proof.
  induction n as [|n IH]; simpl.
  - destruct (0 <? lo); [discriminate|].
    destruct (k 0) eqn:E; [|discriminate]. intros H. exists 0. congruence.
  - destruct (S n <? lo); [discriminate|].
    destruct (k (S n)) eqn:E; [|exact IH]. intros H. exists (S n). congruence.
Qed.

(** What is left after a match is a part of what was there. *)
Lemma re_match_rest items : forall pos cur done s groups rest,
  re_match items pos cur done s = Some (groups, rest) ->
  length rest <= length s.
Proof.
  induction items as [|[|cls lo hi| |] k IH]; intros pos cur done s groups rest;
    simpl.
  - intros H. injection H as _ <-. lia.
  - destruct (pos =? 0); [apply IH | discriminate].
  - intros H. apply try_down_some in H as [m H]. apply IH in H.
    rewrite length_drop in H. lia.
  - apply IH.
  - apply IH.
Qed.

Lemma re_search_from_rest items : forall s pos start groups rest,
  re_search_from items pos s = Some (start, (groups, rest)) ->
  length rest <= length s.
Proof.
  induction s as [|c s IH]; intros pos start groups rest; simpl;
    destruct (re_match items pos None [] _) as [[g r]|] eqn:E;
    try discriminate.
  - intros H. injection H as _ _ <-. now apply re_match_rest in E.
  - intros H. injection H as _ _ <-. now apply re_match_rest in E.
  - intros H. apply IH in H. lia.
Qed.

Ltac stuck_by_classes :=
  let c := fresh "c" in
  let s := fresh "s" in
  let H := fresh "H" in
  intros c s H; simpl;
  repeat first
    [ rewrite (alpha_not_sep _ H) | rewrite (alpha_not_digit _ H)
    | rewrite (sep_not_digit _ H) | rewrite (sep_not_alpha _ H)
    | rewrite (digit_not_sep _ H) | rewrite (digit_not_alpha _ H) ];
  reflexivity.

Lemma re_match_open k pos cur done s :
  re_match (GroupOpen :: k) pos cur done s = re_match k pos (Some "") done s.
Proof. reflexivity. Qed.

Lemma re_match_close k pos cur done s :
  re_match (GroupClose :: k) pos cur done s =
  re_match k pos None (done ++ [close_group cur]) s.
Proof. reflexivity. Qed.

(** One repetition of an anchored pattern, read greedily. *)
Ltac greedy_step :=
  rewrite ?re_match_open, ?re_match_close;
  first [ rewrite re_match_rep_greedy by stuck_by_classes
        | rewrite re_match_rep_last by (intros; discriminate) ];
  match goal with
  | |- context [greedy ?cls ?lo ?s] =>
      destruct (greedy cls lo s) as [[? ?]|]; [|reflexivity]
  end.

(** [pline.search(name)] is the greedy reading of the pattern. *)
Lemma pline_search_greedy s : re_search pline s = pline_greedy s.
Proof.
  unfold pline, pline_greedy, plus, star. rewrite re_search_bol.
  do 5 greedy_step. reflexivity.
Qed.

Lemma parea_search_greedy s : re_search parea s = parea_greedy s.
Proof.
  unfold parea, parea_greedy, plus. rewrite re_search_bol.
  do 3 greedy_step. reflexivity.
Qed.

(** ** NameNormalizer *)

Lemma upper_char_upper_letter c :
  is_alpha c = true -> in_range "A" "Z" (upper_char c) = true.
Proof. by_ascii_cases c. Qed.

Lemma upper_letter_fixed c : in_range "A" "Z" c = true -> upper_char c = c.
Proof. by_ascii_cases c. Qed.

Lemma upper_letter_alpha c : in_range "A" "Z" c = true -> is_alpha c = true.
Proof. by_ascii_cases c. Qed.

Lemma upper_letters_upper s : letters s -> upper_letters (upper s).
Proof.
  intros [Ha He]. split; [|now rewrite is_empty_upper].
  clear He. induction s as [|c s IH]; simpl in *; [reflexivity|].
  apply andb_true_iff in Ha as [Hc Hs].
  now rewrite (upper_char_upper_letter c Hc), (IH Hs).
Qed.

Lemma upper_letters_letters s : upper_letters s -> letters s.
Proof.
  intros [Ha He]. split; [|exact He].
  clear He. induction s as [|c s IH]; simpl in *; [reflexivity|].
  apply andb_true_iff in Ha as [Hc Hs].
  now rewrite (upper_letter_alpha c Hc), (IH Hs).
Qed.

Lemma digits_chano ano : digits ano -> digits (_chano ano).
Proof.
  intros [Ha He]. unfold _chano. destruct (length ano =? 2); [|now split].
  split; [simpl; exact Ha | reflexivity].
Qed.

Lemma length_chano ano :
  length (_chano ano) = 4 <-> length ano = 2 \/ length ano = 4.
Proof.
  unfold _chano. destruct (length ano =? 2) eqn:E.
  - apply Nat.eqb_eq in E. simpl. lia.
  - apply Nat.eqb_neq in E. lia.
Qed.

Lemma chano_idem ano : _chano (_chano ano) = _chano ano.
Proof.
  unfold _chano at 2. destruct (length ano =? 2) eqn:E.
  - apply Nat.eqb_eq in E. unfold _chano. simpl. now rewrite E.
  - unfold _chano. now rewrite E.
Qed.

(** Upper-casing a normalised Line name touches the letters only. *)
Lemma upper_line name ano num :
  digits ano -> digits num ->
  upper (name ++ "-" ++ _chano ano ++ "-" ++ num)
  = upper name ++ "-" ++ _chano ano ++ "-" ++ num.
Proof.
  intros Ha [Hn _]. destruct (digits_chano ano Ha) as [Hc _].
  rewrite upper_append. change (upper ("-" ++ ?x)) with ("-" ++ upper x).
  rewrite upper_append. change (upper ("-" ++ ?x)) with ("-" ++ upper x).
  now rewrite (upper_digits _ Hc), (upper_digits _ Hn).
Qed.

Lemma upper_area name ano :
  digits ano -> upper (name ++ "-" ++ ano) = upper name ++ "-" ++ ano.
Proof.
  intros [Ha _]. rewrite upper_append.
  change (upper ("-" ++ ?x)) with ("-" ++ upper x).
  now rewrite (upper_digits _ Ha).
Qed.

Ltac class_facts := eauto using starts_with_other with classes.

(** What begins with a non-empty run of one class does not begin with
    a character of a disjoint class. *)
Lemma starts_with_run cls cls' a b :
  (forall c, cls' c = true -> cls c = false) ->
  all_of cls' a = true -> is_empty a = false ->
  starts_with cls (a ++ b) = false.
Proof.
  intros Hd Ha He. rewrite starts_with_append, He.
  now apply (starts_with_other cls cls').
Qed.

(** The groups of a Line-shaped text followed by anything that does not
    begin with a digit. *)
Lemma pline_greedy_shaped name s1 ano s2 num rest :
  line_shaped name s1 ano s2 num -> starts_with is_digit rest = false ->
  pline_greedy (name ++ s1 ++ ano ++ s2 ++ num ++ rest)
  = Some ([name; ano; num], rest).
Proof.
  intros ([Hn Hn'] & Hs1 & [Ha Ha'] & Hs2 & Hs2' & [Hm Hm']) Hrest.
  assert (Hdig : forall t, starts_with is_sep (ano ++ t) = false)
    by (intros t; apply (starts_with_run _ is_digit); class_facts).
  unfold pline_greedy.
  rewrite (greedy_append is_alpha 1 name); [|assumption| |now apply is_empty_length].
  2:{ rewrite starts_with_append. destruct (is_empty s1).
      - apply (starts_with_run _ is_digit); class_facts.
      - apply (starts_with_other _ is_sep); class_facts. }
  rewrite (greedy_append is_sep 0 s1); [|assumption|apply Hdig|lia].
  rewrite (greedy_append is_digit 1 ano); [|assumption| |now apply is_empty_length].
  2:{ apply (starts_with_run _ is_sep); class_facts. }
  rewrite (greedy_append is_sep 1 s2); [|assumption| |now apply is_empty_length].
  2:{ apply (starts_with_run _ is_digit); class_facts. }
  rewrite (greedy_append is_digit 1 num); [reflexivity|assumption|assumption|].
  now apply is_empty_length.
Qed.

Lemma pline_greedy_inv s gs rest :
  pline_greedy s = Some (gs, rest) ->
  exists name s1 ano s2 num,
    gs = [name; ano; num] /\ s = name ++ s1 ++ ano ++ s2 ++ num ++ rest
    /\ line_shaped name s1 ano s2 num /\ starts_with is_digit rest = false.
Proof.
  unfold pline_greedy.
  destruct (greedy is_alpha 1 s) as [[name t1]|] eqn:E1; [|discriminate].
  destruct (greedy is_sep 0 t1) as [[s1 t2]|] eqn:E2; [|discriminate].
  destruct (greedy is_digit 1 t2) as [[ano t3]|] eqn:E3; [|discriminate].
  destruct (greedy is_sep 1 t3) as [[s2 t4]|] eqn:E4; [|discriminate].
  destruct (greedy is_digit 1 t4) as [[num t5]|] eqn:E5; [|discriminate].
  intros H. injection H as <- <-.
  apply greedy_inv in E1 as (-> & A1 & _ & L1).
  apply greedy_inv in E2 as (-> & A2 & _ & _).
  apply greedy_inv in E3 as (-> & A3 & _ & L3).
  apply greedy_inv in E4 as (-> & A4 & _ & L4).
  apply greedy_inv in E5 as (-> & A5 & B5 & L5).
  exists name, s1, ano, s2, num.
  repeat split; try assumption; now apply is_empty_length.
Qed.

Lemma parea_greedy_shaped name s1 ano rest :
  area_shaped name s1 ano -> starts_with is_digit rest = false ->
  parea_greedy (name ++ s1 ++ ano ++ rest) = Some ([name; ano], rest).
Proof.
  intros ([Hn Hn'] & Hs1 & Hs1' & [Ha Ha']) Hrest.
  unfold parea_greedy.
  rewrite (greedy_append is_alpha 1 name); [|assumption| |now apply is_empty_length].
  2:{ apply (starts_with_run _ is_sep); class_facts. }
  rewrite (greedy_append is_sep 1 s1); [|assumption| |now apply is_empty_length].
  2:{ apply (starts_with_run _ is_digit); class_facts. }
  rewrite (greedy_append is_digit 1 ano); [reflexivity|assumption|assumption|].
  now apply is_empty_length.
Qed.

Lemma parea_greedy_inv s gs rest :
  parea_greedy s = Some (gs, rest) ->
  exists name s1 ano,
    gs = [name; ano] /\ s = name ++ s1 ++ ano ++ rest
    /\ area_shaped name s1 ano /\ starts_with is_digit rest = false.
Proof.
  unfold parea_greedy.
  destruct (greedy is_alpha 1 s) as [[name t1]|] eqn:E1; [|discriminate].
  destruct (greedy is_sep 1 t1) as [[s1 t2]|] eqn:E2; [|discriminate].
  destruct (greedy is_digit 1 t2) as [[ano t3]|] eqn:E3; [|discriminate].
  intros H. injection H as <- <-.
  apply greedy_inv in E1 as (-> & A1 & _ & L1).
  apply greedy_inv in E2 as (-> & A2 & _ & L2).
  apply greedy_inv in E3 as (-> & A3 & B3 & L3).
  exists name, s1, ano.
  repeat split; try assumption; now apply is_empty_length.
Qed.

(** [normNameLine] on a Line-shaped text followed by anything that does
    not begin with a digit. *)
Lemma normNameLine_shaped name s1 ano s2 num rest :
  line_shaped name s1 ano s2 num -> starts_with is_digit rest = false ->
  normNameLine (name ++ s1 ++ ano ++ s2 ++ num ++ rest)
  = Some (upper name ++ "-" ++ _chano ano ++ "-" ++ num).
Proof.
  intros Hs Hrest. unfold normNameLine.
  rewrite pline_search_greedy, (pline_greedy_shaped _ _ _ _ _ _ Hs Hrest).
  cbv beta iota. destruct Hs as (_ & _ & Ha & _ & _ & Hn). f_equal. now apply upper_line.
Qed.

Lemma normNameLine_inv x y :
  normNameLine x = Some y ->
  exists name s1 ano s2 num rest,
    x = name ++ s1 ++ ano ++ s2 ++ num ++ rest
    /\ line_shaped name s1 ano s2 num /\ starts_with is_digit rest = false
    /\ y = upper name ++ "-" ++ _chano ano ++ "-" ++ num.
Proof.
  unfold normNameLine. rewrite pline_search_greedy.
  destruct (pline_greedy x) as [[gs rest]|] eqn:E; [|discriminate].
  apply pline_greedy_inv in E as (name & s1 & ano & s2 & num & -> & -> & Hs & Hr).
  intros H. injection H as <-.
  exists name, s1, ano, s2, num, rest. repeat split; try apply Hs; try assumption.
  destruct Hs as (_ & _ & Ha & _ & _ & Hn). now apply upper_line.
Qed.

Lemma normNameArea_shaped name s1 ano rest :
  area_shaped name s1 ano -> starts_with is_digit rest = false ->
  normNameArea (name ++ s1 ++ ano ++ rest) = Some (upper name ++ "-" ++ ano).
Proof.
  intros Hs Hrest. unfold normNameArea.
  rewrite parea_search_greedy, (parea_greedy_shaped _ _ _ _ Hs Hrest).
  cbv beta iota. destruct Hs as (_ & _ & _ & Ha). f_equal. now apply upper_area.
Qed.

Lemma normNameArea_inv x y :
  normNameArea x = Some y ->
  exists name s1 ano rest,
    x = name ++ s1 ++ ano ++ rest
    /\ area_shaped name s1 ano /\ starts_with is_digit rest = false
    /\ y = upper name ++ "-" ++ ano.
Proof.
  unfold normNameArea. rewrite parea_search_greedy.
  destruct (parea_greedy x) as [[gs rest]|] eqn:E; [|discriminate].
  apply parea_greedy_inv in E as (name & s1 & ano & -> & -> & Hs & Hr).
  intros H. injection H as <-.
  exists name, s1, ano, rest. repeat split; try apply Hs; try assumption.
  destruct Hs as (_ & _ & _ & Ha). now apply upper_area.
Qed.

Lemma normNameLine_exact name s1 ano s2 num :
  line_shaped name s1 ano s2 num ->
  normNameLine (name ++ s1 ++ ano ++ s2 ++ num)
  = Some (upper name ++ "-" ++ _chano ano ++ "-" ++ num).
Proof.
  intros Hs. rewrite <- (normNameLine_shaped _ _ _ _ _ "" Hs eq_refl).
  now rewrite append_empty_r.
Qed.

Lemma normNameArea_exact name s1 ano :
  area_shaped name s1 ano ->
  normNameArea (name ++ s1 ++ ano) = Some (upper name ++ "-" ++ ano).
Proof.
  intros Hs. rewrite <- (normNameArea_shaped _ _ _ "" Hs eq_refl).
  now rewrite append_empty_r.
Qed.

(** C1.  On the Area entry point the year group is not expanded: the
    two-digit year of ["xyz-99"] comes back as it was given, where the
    claim has ["XYZ-1999"]; the Line entry point, given the same year,
    does prefix it with ["19"]. *)
Theorem normNameArea_two_digit_year :
  normNameArea "xyz-99" = Some "XYZ-99"
  /\ normNameArea "xyz-99" <> Some "XYZ-1999"
  /\ normNameLine "xyz-99-1" = Some "XYZ-1999-1".
Proof.
  split; [reflexivity | split; [|reflexivity]].
  intros H. vm_compute in H. discriminate H.
Qed.

(** C5.  Line normalisation prefixes a year group of exactly two digits
    with ["19"] and leaves a year group of four digits as it is; the
    letters are upper-cased and the groups joined by ["-"].  In
    particular ["abc_87_1234"] gives ["ABC-1987-1234"]. *)
Theorem normNameLine_year_expansion name s1 ano s2 num rest :
  line_shaped name s1 ano s2 num -> starts_with is_digit rest = false ->
  normNameLine "abc_87_1234" = Some "ABC-1987-1234"
  /\ (length ano = 2 ->
      normNameLine (name ++ s1 ++ ano ++ s2 ++ num ++ rest)
      = Some (upper name ++ "-" ++ ("19" ++ ano) ++ "-" ++ num))
  /\ (length ano = 4 ->
      normNameLine (name ++ s1 ++ ano ++ s2 ++ num ++ rest)
      = Some (upper name ++ "-" ++ ano ++ "-" ++ num)).
Proof.
  intros Hs Hrest. split; [reflexivity|].
  rewrite (normNameLine_shaped _ _ _ _ _ _ Hs Hrest). unfold _chano.
  split; intros ->; reflexivity.
Qed.

Lemma normNameLine_year_expansion_witness :
  normNameLine "abc_87_1234" = Some "ABC-1987-1234"
  /\ (length "87" = 2 ->
      normNameLine ("abc" ++ "_" ++ "87" ++ "_" ++ "1234" ++ "")
      = Some (upper "abc" ++ "-" ++ ("19" ++ "87") ++ "-" ++ "1234"))
  /\ (length "87" = 4 ->
      normNameLine ("abc" ++ "_" ++ "87" ++ "_" ++ "1234" ++ "")
      = Some (upper "abc" ++ "-" ++ "87" ++ "-" ++ "1234")).
Proof.
  apply (normNameLine_year_expansion "abc" "_" "87" "_" "1234" "").
  - repeat split; reflexivity.
  - reflexivity.
Defined.

(** C2, as the claim states it, fails on the Line entry point: a year
    group of one digit is left as it is, so the result has no reading
    [NAME-YEAR-NUMBER] with a year of four digits. *)
Lemma normNameLine_year_not_four_digits :
  normNameLine "a_1_2" = Some "A-1-2"
  /\ ~ (exists name year num,
          canonical_line "A-1-2" name year num /\ length year = 4).
Proof.
  split; [reflexivity|].
  intros (name & year & num & (Heq & [Hn Hne] & [Hy _] & _) & Hlen).
  destruct name as [|c [|c' name]]; simpl in *; try discriminate.
  - injection Heq as _ Heq.
    destruct year as [|a [|b [|c0 [|d [|e year]]]]]; simpl in *;
      try discriminate.
  - injection Heq as _ Hc' _. rewrite <- Hc' in Hn.
    destruct (in_range "A" "Z" c); discriminate Hn.
Qed.

(** C2, amended.  A result of [normNameLine] is upper-case and reads
    [NAME-YEAR-NUMBER], one of [normNameArea] is upper-case and reads
    [NAME-YEAR]: [NAME] upper-case letters, [YEAR] and [NUMBER] digits,
    none empty.  On the Line entry point [YEAR] is the year group of the
    input through [_chano], and has four digits exactly when that group
    has two or four. *)
Theorem normalised_names_canonical xl yl xa ya :
  (normNameLine xl = Some yl ->
   upper yl = yl
   /\ exists name ano num g1 rest,
        re_search pline xl = Some ([g1; ano; num], rest)
        /\ canonical_line yl name (_chano ano) num
        /\ (length (_chano ano) = 4 <-> length ano = 2 \/ length ano = 4))
  /\ (normNameArea xa = Some ya ->
      upper ya = ya /\ exists name year, canonical_area ya name year).
Proof.
  split.
  - intros H. unfold normNameLine in H.
    destruct (re_search pline xl) as [[gs rest]|] eqn:E; [|discriminate].
    pose proof E as E'. rewrite pline_search_greedy in E'.
    apply pline_greedy_inv in E'
      as (name & s1 & ano & s2 & num & -> & -> & Hs & Hr).
    injection H as <-. destruct Hs as (Hn & _ & Ha & _ & _ & Hm).
    rewrite (upper_line _ _ _ Ha Hm). split.
    + rewrite upper_line by assumption. now rewrite upper_idem.
    + exists (upper name), ano, num, name, rest.
      split; [reflexivity|]. split; [|apply length_chano].
      repeat split; try apply (upper_letters_upper _ Hn);
        try apply (digits_chano _ Ha); apply Hm.
  - intros H. apply normNameArea_inv in H
      as (name & s1 & ano & rest & -> & (Hn & _ & _ & Ha) & _ & ->).
    split.
    + rewrite upper_area by assumption. now rewrite upper_idem.
    + exists (upper name), ano.
      repeat split; try apply (upper_letters_upper _ Hn); apply Ha.
Qed.

Lemma normalised_names_canonical_witness :
  (upper "ABC-1987-1234" = "ABC-1987-1234"
   /\ exists name ano num g1 rest,
        re_search pline "abc_87_1234" = Some ([g1; ano; num], rest)
        /\ canonical_line "ABC-1987-1234" name (_chano ano) num
        /\ (length (_chano ano) = 4 <-> length ano = 2 \/ length ano = 4))
  /\ (upper "XYZ-2001" = "XYZ-2001"
      /\ exists name year, canonical_area "XYZ-2001" name year).
Proof.
  split.
  - apply (proj1 (normalised_names_canonical
                    "abc_87_1234" "ABC-1987-1234" "xyz_2001" "XYZ-2001")).
    reflexivity.
  - apply (proj2 (normalised_names_canonical
                    "abc_87_1234" "ABC-1987-1234" "xyz_2001" "XYZ-2001")).
    reflexivity.
Defined.

(** C6.  Normalisation is idempotent on its own output: a result of
    [normNameLine] is normalised by [normNameLine] to itself, and a
    result of [normNameArea] by [normNameArea] to itself. *)
Theorem normalisation_idempotent xl yl xa ya :
  (normNameLine xl = Some yl -> normNameLine yl = Some yl)
  /\ (normNameArea xa = Some ya -> normNameArea ya = Some ya).
Proof.
  split.
  - intros H. apply normNameLine_inv in H
      as (name & s1 & ano & s2 & num & rest & _ & Hs & _ & ->).
    destruct Hs as (Hn & _ & Ha & _ & _ & Hm).
    rewrite (normNameLine_exact (upper name) "-" (_chano ano) "-" num).
    + now rewrite chano_idem, upper_idem.
    + repeat split; try apply Hm; try apply (digits_chano _ Ha);
        apply upper_letters_letters, upper_letters_upper, Hn.
  - intros H. apply normNameArea_inv in H
      as (name & s1 & ano & rest & _ & (Hn & _ & _ & Ha) & _ & ->).
    rewrite (normNameArea_exact (upper name) "-" ano).
    + now rewrite upper_idem.
    + repeat split; try apply Ha;
        apply upper_letters_letters, upper_letters_upper, Hn.
Qed.

Lemma normalisation_idempotent_witness :
  normNameLine "ABC-1987-1234" = Some "ABC-1987-1234"
  /\ normNameArea "XYZ-99" = Some "XYZ-99".
Proof.
  split.
  - apply (proj1 (normalisation_idempotent
                    "abc_87_1234" "ABC-1987-1234" "xyz-99" "XYZ-99")).
    reflexivity.
  - apply (proj2 (normalisation_idempotent
                    "abc_87_1234" "ABC-1987-1234" "xyz-99" "XYZ-99")).
    reflexivity.
Defined.

Lemma leading_after cls s : leading cls s ++ after_leading cls s = s.
Proof. apply take_drop. Qed.

Lemma leading_stuck cls s : starts_with cls s = false -> leading cls s = "".
Proof.
  intros H. unfold leading. rewrite (run_length_stuck cls None s H).
  now destruct s.
Qed.

Lemma digits_leading num extra :
  digits num -> digits (num ++ leading is_digit extra).
Proof.
  intros [Hn He]. split.
  - rewrite all_of_append, Hn. apply all_of_take_run.
  - destruct num; [discriminate | reflexivity].
Qed.

(** The groups of a Line-shaped text followed by any text at all: the
    digits the extra text begins with join the last group, the rest is
    left unmatched. *)
Lemma pline_search_extra name s1 ano s2 num extra :
  line_shaped name s1 ano s2 num ->
  re_search pline (name ++ s1 ++ ano ++ s2 ++ num ++ extra)
  = Some ([name; ano; num ++ leading is_digit extra],
          after_leading is_digit extra).
Proof.
  intros (Hn & Hs1 & Ha & Hs2 & Hs2' & Hm).
  rewrite <- (leading_after is_digit extra) at 1.
  rewrite <- (append_assoc num). rewrite pline_search_greedy.
  apply pline_greedy_shaped.
  - repeat split; try apply Hn; try apply Ha; try assumption;
      now apply digits_leading.
  - apply starts_with_drop_run.
Qed.

Lemma parea_search_extra name s1 ano extra :
  area_shaped name s1 ano ->
  re_search parea (name ++ s1 ++ ano ++ extra)
  = Some ([name; ano ++ leading is_digit extra],
          after_leading is_digit extra).
Proof.
  intros (Hn & Hs1 & Hs1' & Ha).
  rewrite <- (leading_after is_digit extra) at 1.
  rewrite <- (append_assoc ano). rewrite parea_search_greedy.
  apply parea_greedy_shaped.
  - repeat split; try apply Hn; try assumption; now apply digits_leading.
  - apply starts_with_drop_run.
Qed.

(** C10.  The patterns are anchored at the start only.  A text that
    begins with a Line (Area) shape and goes on with any extra text is
    normalised from the matched prefix alone: the shape, with the digits
    the extra text may begin with, which the greedy last group takes.
    What follows is left unmatched and plays no part in the result; when
    the extra text does not begin with a digit the result is that of the
    shape alone.  In particular ["abc_87_1234xyz"] gives
    ["ABC-1987-1234"]. *)
Theorem normalisers_use_matched_prefix
  name s1 ano s2 num extra aname asep aano aextra :
  line_shaped name s1 ano s2 num -> area_shaped aname asep aano ->
  (re_search pline (name ++ s1 ++ ano ++ s2 ++ num ++ extra)
   = Some ([name; ano; num ++ leading is_digit extra],
           after_leading is_digit extra)
   /\ normNameLine (name ++ s1 ++ ano ++ s2 ++ num ++ extra)
      = Some (upper name ++ "-" ++ _chano ano ++ "-"
              ++ num ++ leading is_digit extra)
   /\ (starts_with is_digit extra = false ->
       normNameLine (name ++ s1 ++ ano ++ s2 ++ num ++ extra)
       = normNameLine (name ++ s1 ++ ano ++ s2 ++ num)))
  /\ (re_search parea (aname ++ asep ++ aano ++ aextra)
      = Some ([aname; aano ++ leading is_digit aextra],
              after_leading is_digit aextra)
      /\ normNameArea (aname ++ asep ++ aano ++ aextra)
         = Some (upper aname ++ "-" ++ aano ++ leading is_digit aextra)
      /\ (starts_with is_digit aextra = false ->
          normNameArea (aname ++ asep ++ aano ++ aextra)
          = normNameArea (aname ++ asep ++ aano)))
  /\ normNameLine "abc_87_1234xyz" = Some "ABC-1987-1234".
Proof.
  intros Hl Ha.
  assert (HL : normNameLine (name ++ s1 ++ ano ++ s2 ++ num ++ extra)
               = Some (upper name ++ "-" ++ _chano ano ++ "-"
                       ++ num ++ leading is_digit extra)).
  { unfold normNameLine. rewrite (pline_search_extra _ _ _ _ _ _ Hl).
    cbv beta iota. f_equal. apply upper_line; [apply Hl|].
    apply digits_leading, Hl. }
  assert (HA : normNameArea (aname ++ asep ++ aano ++ aextra)
               = Some (upper aname ++ "-" ++ aano ++ leading is_digit aextra)).
  { unfold normNameArea. rewrite (parea_search_extra _ _ _ _ Ha).
    cbv beta iota. f_equal. apply upper_area. apply digits_leading, Ha. }
  repeat split.
  - now apply pline_search_extra.
  - exact HL.
  - intros Hd. rewrite HL, (normNameLine_exact _ _ _ _ _ Hl).
    now rewrite (leading_stuck _ _ Hd), append_empty_r.
  - now apply parea_search_extra.
  - exact HA.
  - intros Hd. rewrite HA, (normNameArea_exact _ _ _ Ha).
    now rewrite (leading_stuck _ _ Hd), append_empty_r.
Qed.

Lemma normalisers_use_matched_prefix_witness :
  normNameLine ("abc" ++ "_" ++ "87" ++ "_" ++ "1234" ++ "56-xyz")
  = Some "ABC-1987-123456"
  /\ normNameArea ("xyz" ++ "-" ++ "99" ++ " (north)") = Some "XYZ-99".
Proof.
  pose proof (normalisers_use_matched_prefix
                "abc" "_" "87" "_" "1234" "56-xyz" "xyz" "-" "99" " (north)")
    as H.
  destruct H as ((_ & Hl & _) & (_ & Ha & _) & _).
  - repeat split; reflexivity.
  - repeat split; reflexivity.
  - split; [exact Hl | exact Ha].
Defined.

(** ** HeaderLocator *)

Lemma after_loop_unmarked mark : forall lines n,
  (forall r, In r lines -> marked mark r = false) ->
  _skiprows_header_after_loop mark false n lines = Returns None.
Proof.
  induction lines as [|r rest IH]; intros n H; simpl; [reflexivity|].
  rewrite (H r) by now left.
  apply IH. intros r' Hr'. apply H. now right.
Qed.

Lemma before_loop_unmarked mark : forall lines rold n,
  (forall r, In r lines -> marked mark r = false) ->
  _skiprows_header_before_loop mark rold n lines = Returns None.
Proof.
  induction lines as [|r rest IH]; intros rold n H; simpl; [reflexivity|].
  rewrite (H r) by now left.
  apply IH. intros r' Hr'. apply H. now right.
Qed.

(** C4, as the claim states it, fails: on a file with no marked line
    both locators return [None], and neither raises. *)
Lemma header_locators_return_none :
  let doc := ["STATION  X  Y" ++ newline; "1        10 20" ++ newline] in
  _skiprows_header_before doc "<" = Returns None
  /\ _skiprows_header_after doc "<<" = Returns None
  /\ ~ signals_failure (_skiprows_header_before doc "<")
  /\ ~ signals_failure (_skiprows_header_after doc "<<").
Proof. repeat split; intros H; exact H. Qed.

(** C4, amended.  When no line of the file begins with the marker, both
    locators run off the end of their loop and return [None]; nothing is
    raised by them.  The failure shows one call up, where the caller
    unpacks the result: [_widths_skiprows] leaves with a [TypeError]. *)
Theorem header_locators_without_marker doc mark :
  (forall r, In r doc -> marked mark r = false) ->
  _skiprows_header_before doc mark = Returns None
  /\ _skiprows_header_after doc mark = Returns None
  /\ (mark = "<<" -> _widths_skiprows doc = Raises TypeError).
Proof.
  intros H. repeat split.
  - now apply before_loop_unmarked.
  - now apply after_loop_unmarked.
  - intros ->. unfold _widths_skiprows, _skiprows_header_after.
    now rewrite after_loop_unmarked.
Qed.

Lemma header_locators_without_marker_witness :
  let doc := ["STATION  X  Y" ++ newline; "1        10 20" ++ newline] in
  _skiprows_header_before doc "<<" = Returns None
  /\ _skiprows_header_after doc "<<" = Returns None
  /\ ("<<" = "<<" -> _widths_skiprows doc = Raises TypeError).
Proof.
  apply (header_locators_without_marker
           ["STATION  X  Y" ++ newline; "1        10 20" ++ newline] "<<").
  intros r [<-|[<-|[]]]; reflexivity.
Defined.

(** ** MetadataExtractor *)

Lemma promax2meta_no_match target : forall doc,
  (forall l, In l doc -> meta_in_line target l = None) ->
  promax2meta doc target = None.
Proof.
  induction doc as [|l doc IH]; intros H; simpl; [reflexivity|].
  rewrite (H l) by now left.
  apply IH. intros l' Hl'. apply H. now right.
Qed.

Lemma promax2meta_first target v line after : forall before,
  (forall l, In l before -> meta_in_line target l = None) ->
  meta_in_line target line = Some v ->
  promax2meta (before ++ line :: after) target = Some v.
Proof.
  induction before as [|l before IH]; intros Hb Hl; simpl.
  - now rewrite Hl.
  - rewrite (Hb l) by now left.
    apply IH; [|exact Hl]. intros l' Hl'. apply Hb. now right.
Qed.

Lemma space_not_assign c : is_space c = true -> is_assign c = false.
Proof. by_ascii_cases c. Qed.

Lemma space_not_dquote c : is_space c = true -> is_dquote c = false.
Proof. by_ascii_cases c. Qed.

Lemma space_not_word c : is_space c = true -> is_word_or_dash c = false.
Proof. by_ascii_cases c. Qed.

Lemma assign_not_space c : is_assign c = true -> is_space c = false.
Proof. by_ascii_cases c. Qed.

Lemma word_not_space c : is_word_or_dash c = true -> is_space c = false.
Proof. by_ascii_cases c. Qed.

Lemma word_not_dquote c : is_word_or_dash c = true -> is_dquote c = false.
Proof. by_ascii_cases c. Qed.

Lemma run_length_zero cls s : run_length cls (Some 0) s = 0.
Proof. destruct s as [|c s]; simpl; [reflexivity | now destruct (cls c)]. Qed.

(** One character of a class: it is there or the match fails. *)
Lemma re_match_one cls k pos cur done c s :
  re_match (one cls :: k) pos cur done (String c s) =
  if cls c then re_match k (pos + 1) (capture cur (String c "")) done s
  else None.
Proof.
  unfold one. simpl. destruct (cls c); [|reflexivity].
  rewrite run_length_zero. simpl.
  now destruct (re_match k (pos + 1) (capture cur (String c "")) done s).
Qed.

(** An optional character that is not there. *)
Lemma re_match_opt_absent cls k pos done s :
  starts_with cls s = false ->
  re_match (opt cls :: k) pos None done s = re_match k (pos + 0) None done s.
Proof.
  intros H. unfold opt. simpl. rewrite (run_length_stuck cls _ s H). simpl.
  replace (drop 0 s) with s by now destruct s.
  now destruct (re_match k (pos + 0) None done s).
Qed.

(** An optional character that is there, when the rest matches with it. *)
Lemma re_match_opt_present cls k pos done c s :
  cls c = true -> re_match k (pos + 1) None done s <> None ->
  re_match (opt cls :: k) pos None done (String c s)
  = re_match k (pos + 1) None done s.
Proof.
  intros Hc Hk. unfold opt. simpl. rewrite Hc, run_length_zero. simpl.
  destruct (re_match k (pos + 1) None done s); [reflexivity | now elim Hk].
Qed.

(** A closing optional character never makes the match fail. *)
Lemma re_match_opt_last cls pos cur done s :
  exists rest, re_match [opt cls] pos cur done s = Some (done, rest).
Proof.
  unfold opt. simpl.
  rewrite try_down_success by (intros _; discriminate).
  now eexists.
Qed.

Lemma re_match_escaped k : forall target key pos done s,
  caseless target key = true ->
  re_match (escaped target ++ k) pos None done (key ++ s)
  = re_match k (pos + length key) None done s.
Proof.
  induction target as [|p t IH]; intros [|c key] pos done s H;
    try discriminate.
  - simpl. now rewrite Nat.add_0_r.
  - simpl in H. apply andb_true_iff in H as [Hc Ht].
    change (re_match (one (is_lit_nocase p) :: (escaped t ++ k)%list) pos None
              done (String c (key ++ s))
            = re_match k (pos + length (String c key)) None done s).
    rewrite re_match_one, Hc. simpl capture. rewrite (IH key _ _ _ Ht).
    f_equal. simpl. lia.
Qed.

(** The value group and what closes the pattern. *)
Lemma re_match_value pos done value rest :
  all_of is_word_or_dash value = true -> is_empty value = false ->
  starts_with is_word_or_dash rest = false ->
  exists rest',
    re_match [GroupOpen; plus is_word_or_dash; GroupClose; opt is_dquote]
      pos None done (value ++ rest)
    = Some ((done ++ [value])%list, rest').
Proof.
  intros Hv He Hr. unfold plus. rewrite re_match_open.
  rewrite re_match_rep_last.
  - rewrite (greedy_append _ 1 value rest Hv Hr) by now apply is_empty_length.
    rewrite re_match_close. apply re_match_opt_last.
  - intros p c d s. rewrite re_match_close.
    destruct (re_match_opt_last is_dquote p None (d ++ [close_group c])%list s)
      as [r ->].
    discriminate.
Qed.

(** A line that begins with the key, then [=] or [:], then the value,
    bare or after an opening quote, with any white space around the
    sign: the value is found. *)
Lemma meta_in_line_shaped target key ws1 op ws2 value rest :
  caseless target key = true ->
  all_of is_space ws1 = true -> is_assign op = true ->
  all_of is_space ws2 = true ->
  all_of is_word_or_dash value = true -> is_empty value = false ->
  starts_with is_word_or_dash rest = false ->
  meta_in_line target (key ++ ws1 ++ String op (ws2 ++ value ++ rest))
  = Some value
  /\ meta_in_line target
       (key ++ ws1 ++ String op (ws2 ++ String dquote (value ++ rest)))
     = Some value.
Proof.
  intros Hk H1 Hop H2 Hv He Hr.
  assert (Hfirst : starts_with is_word_or_dash value = true).
  { destruct value as [|c v]; [discriminate|]. simpl in *.
    now apply andb_true_iff in Hv as [-> _]. }
  assert (Hns : starts_with is_space (value ++ rest) = false).
  { rewrite starts_with_append, He.
    apply (starts_with_other _ is_word_or_dash); [apply word_not_space | exact Hv]. }
  assert (Hnq : starts_with is_dquote (value ++ rest) = false).
  { rewrite starts_with_append, He.
    apply (starts_with_other _ is_word_or_dash); [apply word_not_dquote | exact Hv]. }
  assert (Htail : forall pos q,
            q = value ++ rest \/ q = String dquote (value ++ rest) ->
            exists rest',
              re_match [star is_space; one is_assign; star is_space;
                        opt is_dquote; GroupOpen; plus is_word_or_dash;
                        GroupClose; opt is_dquote]
                pos None [] (ws1 ++ String op (ws2 ++ q))
              = Some ([value], rest')).
  { intros pos q Hq. unfold star.
    rewrite re_match_rep_greedy.
    2:{ intros c s Hc. simpl. now rewrite (space_not_assign c Hc). }
    rewrite (greedy_append is_space 0 ws1 _ H1);
      [|simpl; now apply assign_not_space|lia].
    simpl capture. rewrite re_match_one, Hop. simpl capture.
    rewrite re_match_rep_greedy.
    2:{ intros c s Hc. simpl.
        now rewrite (space_not_dquote c Hc), (space_not_word c Hc). }
    rewrite (greedy_append is_space 0 ws2 q H2); [| |lia].
    2:{ destruct Hq as [-> | ->]; [exact Hns | reflexivity]. }
    simpl capture.
    destruct Hq as [-> | ->].
    - rewrite (re_match_opt_absent _ _ _ _ _ Hnq).
      apply (re_match_value _ [] value rest Hv He Hr).
    - destruct (re_match_value
                  (pos + length ws1 + 1 + length ws2 + 1) [] value rest Hv He Hr)
        as [r Hm].
      rewrite re_match_opt_present; [|reflexivity|now rewrite Hm].
      now exists r. }
  assert (Hline : forall q,
            q = value ++ rest \/ q = String dquote (value ++ rest) ->
            meta_in_line target (key ++ ws1 ++ String op (ws2 ++ q))
            = Some value).
  { intros q Hq. destruct (Htail (0 + length key) q Hq) as [r Hm].
    unfold meta_in_line, re_search.
    rewrite (re_search_from_head _ _ _ ([value], r)); [reflexivity|].
    unfold ptarget. now rewrite (re_match_escaped _ target key 0 [] _ Hk). }
  split; apply Hline; [now left | now right].
Qed.

Lemma quoted_append value tail :
  quoted value ++ tail = String dquote (value ++ String dquote tail).
Proof. unfold quoted. simpl. now rewrite append_assoc. Qed.

(** C9.  [promax2meta] returns the value found in the first line in
    which the pattern is found, and that value alone: whatever later
    lines hold, a second match with another value included, plays no
    part.  When no line matches, nothing is returned.  A line that
    begins with the key in any case, then [=] or [:] with any white
    space around it, then the value, between quotes or bare, matches
    with that value. *)
Theorem promax2meta_first_match target before line1 v1 between line2 v2 after :
  (forall l, In l before -> meta_in_line target l = None) ->
  meta_in_line target line1 = Some v1 ->
  meta_in_line target line2 = Some v2 ->
  v1 <> v2 ->
  let doc := (before ++ line1 :: between ++ line2 :: after)%list in
  promax2meta doc target = Some v1
  /\ promax2meta doc target <> Some v2
  /\ promax2meta before target = None
  /\ (forall key ws1 op ws2 value rest tail,
        caseless target key = true ->
        all_of is_space ws1 = true -> is_assign op = true ->
        all_of is_space ws2 = true ->
        all_of is_word_or_dash value = true -> is_empty value = false ->
        starts_with is_word_or_dash rest = false ->
        meta_in_line target (key ++ ws1 ++ String op "" ++ ws2 ++ value ++ rest)
        = Some value
        /\ meta_in_line target
             (key ++ ws1 ++ String op "" ++ ws2 ++ quoted value ++ tail)
           = Some value)
  /\ meta_in_line "Line" "  line=abc_87 (1987)" = Some "abc_87"
  /\ meta_in_line "Line" "Lines = 12" = None.
Proof.
  intros Hb H1 H2 Hv doc.
  assert (Hdoc : promax2meta doc target = Some v1)
    by now apply promax2meta_first.
  split; [exact Hdoc|].
  split; [rewrite Hdoc; intros H; injection H as H; now apply Hv|].
  split; [now apply promax2meta_no_match|].
  split; [|split; reflexivity].
  intros key ws1 op ws2 value rest tail Hk Hw1 Hop Hw2 Hval He Hr. split.
  - now apply (meta_in_line_shaped target key ws1 op ws2 value rest).
  - rewrite quoted_append.
    now apply (meta_in_line_shaped target key ws1 op ws2 value (String dquote tail)).
Qed.

Lemma promax2meta_first_match_witness :
  promax2meta
    ["# geometry" ++ newline; "Line = " ++ quoted "abc-87" ++ newline;
     "Area: xyz-99" ++ newline; "line = other-01" ++ newline; newline]
    "Line" = Some "abc-87".
Proof.
  refine (proj1 (promax2meta_first_match "Line"
                   ["# geometry" ++ newline]
                   ("Line = " ++ quoted "abc-87" ++ newline) "abc-87"
                   ["Area: xyz-99" ++ newline]
                   ("line = other-01" ++ newline) "other-01"
                   [newline] _ _ _ _)).
  - intros l [<-|[]]. reflexivity.
  - reflexivity.
  - reflexivity.
  - discriminate.
Defined.

(** ** SchemaInferer *)

Lemma but_last_last x c : last_char x = Some c -> x = but_last x ++ String c "".
Proof.
  induction x as [|a x IH]; [discriminate|].
  destruct x as [|b x].
  - simpl. intros H. now injection H as ->.
  - intros H. change (String a (String b x)
                      = String a (but_last (String b x) ++ String c "")).
    f_equal. now apply IH.
Qed.

Lemma last_char_nonempty x : is_empty x = false -> exists c, last_char x = Some c.
Proof.
  induction x as [|a x IH]; simpl; [discriminate|]. intros _.
  destruct x as [|b x]; [now exists a | now apply IH].
Qed.

Lemma has_marker_spec x : has_marker x = true <-> last_char x = Some "*"%char.
Proof.
  unfold has_marker. destruct (last_char x) as [c|]; split; try discriminate.
  - intros H. apply Ascii.eqb_eq in H. now subst.
  - intros H. injection H as ->. reflexivity.
Qed.

Lemma without_marker_spec x :
  (has_marker x = true -> x = without_marker x ++ "*")
  /\ (has_marker x = false -> without_marker x = x).
Proof.
  unfold without_marker. split; intros H; rewrite H; [|reflexivity].
  apply but_last_last. now apply has_marker_spec.
Qed.

Lemma chname_nonempty x :
  is_empty x = false -> _chname x = Returns (without_marker x).
Proof.
  intros H. destruct (last_char_nonempty x H) as [c Hc].
  unfold _chname, ends_with_star, without_marker, has_marker.
  now rewrite Hc.
Qed.

Lemma primary_flag_nonempty x :
  is_empty x = false ->
  primary_flag x = Returns (if has_marker x then "PRIMARY KEY" else "").
Proof.
  intros H. destruct (last_char_nonempty x H) as [c Hc].
  unfold primary_flag, ends_with_star, has_marker. now rewrite Hc.
Qed.

Lemma map_outcome_returns {A B : Type} (f : A -> outcome B) (g : A -> B) :
  forall l, (forall x, In x l -> f x = Returns (g x)) ->
  map_outcome f l = Returns (map g l).
Proof.
  induction l as [|x l IH]; intros H; simpl; [reflexivity|].
  rewrite (H x) by now left. simpl.
  rewrite IH by (intros y Hy; apply H; now right). reflexivity.
Qed.

Lemma combine_column_specs l :
  combine (combine (map without_marker (map fst l)) (map _chtype (map snd l)))
          (map (fun x => if has_marker x then "PRIMARY KEY" else "") (map fst l))
  = map column_spec_of l.
Proof.
  induction l as [|[x d] l IH]; simpl; [reflexivity|]. now rewrite IH.
Qed.

Lemma cols_nonempty df iname :
  index_name df = Some iname -> is_empty iname = false ->
  (forall x, In x (map fst (columns df)) -> is_empty x = false) ->
  cols df = Returns ((without_marker iname, _chtype (index_dtype df), "PRIMARY KEY")
                     :: map column_spec_of (columns df)).
Proof.
  intros Hi Hne Hc. unfold cols. rewrite Hi.
  rewrite (map_outcome_returns primary_flag
             (fun x => if has_marker x then "PRIMARY KEY" else ""))
    by (intros x Hx; now apply primary_flag_nonempty, Hc).
  simpl. rewrite (map_outcome_returns _chname without_marker)
    by (intros x Hx; now apply chname_nonempty, Hc).
  simpl. rewrite (chname_nonempty iname Hne). simpl.
  now rewrite combine_column_specs.
Qed.

(** C8.  On a table whose names are not empty, [cols] puts the index
    first and marks it primary, marker or no marker; it marks a column
    primary exactly when its name ends with ["*"]; and every name it
    emits, the index's included, is the given name less that one
    trailing marker.  The index is among the primary keys [to_access]
    collects. *)
Theorem cols_primary_keys df iname :
  index_name df = Some iname -> is_empty iname = false ->
  (forall x, In x (map fst (columns df)) -> is_empty x = false) ->
  exists ispec specs,
    cols df = Returns (ispec :: specs)
    /\ spec_props ispec = "PRIMARY KEY"
    /\ In (spec_name ispec) (primary_keys (ispec :: specs))
    /\ (last_char iname = Some "*"%char -> iname = spec_name ispec ++ "*")
    /\ (last_char iname <> Some "*"%char -> spec_name ispec = iname)
    /\ List.length specs = List.length (columns df)
    /\ forall i x d, nth_error (columns df) i = Some (x, d) ->
         exists spec,
           nth_error specs i = Some spec
           /\ spec_type spec = _chtype d
           /\ (spec_props spec = "PRIMARY KEY" <-> last_char x = Some "*"%char)
           /\ (last_char x = Some "*"%char -> x = spec_name spec ++ "*")
           /\ (last_char x <> Some "*"%char -> spec_name spec = x).
Proof.
  intros Hi Hne Hc.
  exists (without_marker iname, _chtype (index_dtype df), "PRIMARY KEY"),
         (map column_spec_of (columns df)).
  split; [now apply cols_nonempty|].
  split; [reflexivity|]. split; [now left|].
  split; [intros H; now apply without_marker_spec, has_marker_spec|].
  split.
  { intros H. apply without_marker_spec.
    destruct (has_marker iname) eqn:E; [|reflexivity].
    now apply has_marker_spec in E. }
  split; [apply length_map|].
  intros i x d Hx. exists (column_spec_of (x, d)).
  split; [now rewrite nth_error_map, Hx|].
  split; [reflexivity|].
  unfold column_spec_of, spec_props, spec_name. simpl.
  split; [|split].
  - rewrite <- has_marker_spec. destruct (has_marker x); split;
      try reflexivity; discriminate.
  - intros H. now apply without_marker_spec, has_marker_spec.
  - intros H. apply without_marker_spec.
    destruct (has_marker x) eqn:E; [|reflexivity].
    now apply has_marker_spec in E.
Qed.

Lemma cols_primary_keys_witness :
  exists ispec specs,
    cols {| index_name := Some "CDP"; index_dtype := int64;
            columns := [("X_COORD", float64); ("LINE*", object_dtype)] |}
    = Returns (ispec :: specs)
    /\ spec_props ispec = "PRIMARY KEY"
    /\ primary_keys (ispec :: specs) = ["CDP"; "LINE"].
Proof.
  destruct (cols_primary_keys
              {| index_name := Some "CDP"; index_dtype := int64;
                 columns := [("X_COORD", float64); ("LINE*", object_dtype)] |}
              "CDP" eq_refl eq_refl) as (ispec & specs & Hc & Hp & _).
  - intros x [<-|[<-|[]]]; reflexivity.
  - exists ispec, specs. split; [exact Hc|]. split; [exact Hp|].
    injection Hc as <- <-. reflexivity.
Defined.

(** ** TableLoader *)

Section LoaderProperties.
Variables row key index : Type.
Variable primary_key : row -> key.
Variable key_eq_dec : forall a b : key, {a = b} + {a <> b}.
Variable index_value : row -> index.
Variable c0 : string.

#[local] Abbreviation exec := (keyed_insert primary_key key_eq_dec).
#[local] Abbreviation load_of :=
  (to_access_rows primary_key key_eq_dec index_value c0).
#[local] Abbreviation is_stored := (stored primary_key key_eq_dec).
#[local] Abbreviation skip := (fun r => Skipped r c0 (index_value r)).

(** The steps already taken are carried along unchanged. *)
Lemma to_access_loop_done : forall rows tbl done,
  to_access_loop index_value exec c0 rows tbl done
  = {| trace := done ++ trace (load_of rows tbl);
       table := table (load_of rows tbl);
       aborted := aborted (load_of rows tbl) |}.
Proof.
  unfold to_access_rows.
  induction rows as [|r rows IH]; intros tbl done; simpl.
  - now rewrite app_nil_r.
  - unfold keyed_insert at 1 4 7 10. destruct (is_stored tbl (primary_key r)).
    + rewrite (IH tbl (done ++ [skip r])%list), (IH tbl [skip r]).
      simpl. now rewrite <- app_assoc.
    + rewrite (IH (tbl ++ [r])%list (done ++ [Inserted r])%list),
        (IH (tbl ++ [r])%list [Inserted r]).
      simpl. now rewrite <- app_assoc.
Qed.

Lemma load_cons r rows tbl :
  load_of (r :: rows) tbl =
  if is_stored tbl (primary_key r)
  then {| trace := skip r :: trace (load_of rows tbl);
          table := table (load_of rows tbl);
          aborted := aborted (load_of rows tbl) |}
  else {| trace := Inserted r :: trace (load_of rows (tbl ++ [r]));
          table := table (load_of rows (tbl ++ [r]));
          aborted := aborted (load_of rows (tbl ++ [r])) |}.
Proof.
  unfold to_access_rows at 1. simpl. unfold keyed_insert.
  destruct (is_stored tbl (primary_key r)); now rewrite to_access_loop_done.
Qed.

Lemma load_never_aborts : forall rows tbl, aborted (load_of rows tbl) = false.
Proof.
  induction rows as [|r rows IH]; intros tbl; [reflexivity|].
  rewrite load_cons. destruct (is_stored tbl (primary_key r)); apply IH.
Qed.

Lemma load_attempts_all : forall rows tbl,
  map step_row (trace (load_of rows tbl)) = rows.
Proof.
  induction rows as [|r rows IH]; intros tbl; [reflexivity|].
  rewrite load_cons. destruct (is_stored tbl (primary_key r)); simpl;
    now rewrite IH.
Qed.

Lemma load_app : forall a b tbl,
  trace (load_of (a ++ b) tbl)
  = (trace (load_of a tbl) ++ trace (load_of b (table (load_of a tbl))))%list
  /\ table (load_of (a ++ b) tbl) = table (load_of b (table (load_of a tbl))).
Proof.
  induction a as [|r a IH]; intros b tbl; [now split|].
  simpl app. rewrite !load_cons.
  destruct (is_stored tbl (primary_key r)); simpl.
  - destruct (IH b tbl) as [-> ->]. now split.
  - destruct (IH b (tbl ++ [r])%list) as [-> ->]. now split.
Qed.

Lemma stored_In tbl k : is_stored tbl k = true <-> In k (map primary_key tbl).
Proof.
  unfold stored. rewrite existsb_exists, in_map_iff. split.
  - intros (r & Hr & E). exists r.
    destruct (key_eq_dec (primary_key r) k); [now split | discriminate].
  - intros (r & E & Hr). exists r. split; [exact Hr|].
    destruct (key_eq_dec (primary_key r) k); [reflexivity | contradiction].
Qed.

Lemma load_keeps_stored : forall rows tbl k,
  In k (map primary_key tbl) ->
  In k (map primary_key (table (load_of rows tbl))).
Proof.
  induction rows as [|r rows IH]; intros tbl k Hk; [exact Hk|].
  rewrite load_cons. destruct (is_stored tbl (primary_key r)); simpl.
  - now apply IH.
  - apply IH. rewrite map_app, in_app_iff. now left.
Qed.

Lemma load_stores_all : forall rows tbl r,
  In r rows -> In (primary_key r) (map primary_key (table (load_of rows tbl))).
Proof.
  induction rows as [|r' rows IH]; intros tbl r Hr; [destruct Hr|].
  destruct Hr as [<-|Hr].
  - rewrite load_cons. destruct (is_stored tbl (primary_key r')) eqn:E; simpl.
    + apply load_keeps_stored. now apply stored_In.
    + apply load_keeps_stored. rewrite map_app, in_app_iff. right. now left.
  - rewrite load_cons. destruct (is_stored tbl (primary_key r')); simpl;
      now apply IH.
Qed.

Lemma load_keeps_keys_unique : forall rows tbl,
  NoDup (map primary_key tbl) ->
  NoDup (map primary_key (table (load_of rows tbl))).
Proof.
  induction rows as [|r rows IH]; intros tbl Hn; [exact Hn|].
  rewrite load_cons. destruct (is_stored tbl (primary_key r)) eqn:E; simpl.
  - now apply IH.
  - apply IH. rewrite map_app. simpl.
    apply NoDup_app; [exact Hn | repeat constructor; intros [] |].
    intros k Hk [<-|[]]. apply stored_In in Hk. congruence.
Qed.

(** Rows whose keys are all stored already are all skipped, and the
    table stays as it is. *)
Lemma load_all_stored : forall rows tbl,
  (forall r, In r rows -> In (primary_key r) (map primary_key tbl)) ->
  table (load_of rows tbl) = tbl /\ trace (load_of rows tbl) = map skip rows.
Proof.
  induction rows as [|r rows IH]; intros tbl H; [now split|].
  rewrite load_cons.
  assert (E : is_stored tbl (primary_key r) = true)
    by (apply stored_In, H; now left).
  rewrite E. simpl.
  destruct (IH tbl) as [-> ->]; [|now split].
  intros r' Hr'. apply H. now right.
Qed.

(** Rows with distinct keys, none of them stored, are all inserted. *)
Lemma load_all_fresh : forall rows tbl,
  NoDup (map primary_key rows) ->
  (forall r, In r rows -> ~ In (primary_key r) (map primary_key tbl)) ->
  table (load_of rows tbl) = (tbl ++ rows)%list
  /\ trace (load_of rows tbl) = map Inserted rows.
Proof.
  induction rows as [|r rows IH]; intros tbl Hn H.
  - rewrite app_nil_r. now split.
  - rewrite load_cons.
    assert (E : is_stored tbl (primary_key r) = false).
    { destruct (is_stored tbl (primary_key r)) eqn:E; [|reflexivity].
      apply stored_In in E. elim (H r); [now left | exact E]. }
    rewrite E. simpl. inversion Hn as [|k ks Hk Hks]; subst.
    destruct (IH (tbl ++ [r])%list) as [-> ->]; [exact Hks| |].
    + intros r' Hr'. rewrite map_app, in_app_iff. intros [Hin|[Heq|[]]].
      * elim (H r'); [now right | exact Hin].
      * apply Hk. rewrite Heq. now apply in_map.
    + rewrite <- app_assoc. now split.
Qed.

(** C7.  Against a table that enforces its primary key, the insertion
    loop of [to_access] never aborts and attempts every row in turn.  A
    row whose key is already stored when its turn comes is skipped, with
    a warning that names the first column and the row's value in it, and
    the rows after it are loaded as they would be without it.  Loading
    the same rows a second time skips every one of them and leaves the
    table as the first load left it, holding each row's key exactly
    once; rows with distinct keys, new to the table, are each stored
    once. *)
Theorem load_skips_duplicates before r after tbl :
  let rows := (before ++ r :: after)%list in
  let first := load_of rows tbl in
  let second := load_of rows (table first) in
  let at_r := table (load_of before tbl) in
  aborted first = false
  /\ map step_row (trace first) = rows
  /\ (is_stored at_r (primary_key r) = true ->
      trace first
      = (trace (load_of before tbl) ++ skip r :: trace (load_of after at_r))%list
      /\ table first = table (load_of after at_r))
  /\ (NoDup (map primary_key tbl) ->
      aborted second = false
      /\ table second = table first
      /\ trace second = map skip rows
      /\ forall r', In r' rows ->
           count_occ key_eq_dec (map primary_key (table second)) (primary_key r') = 1)
  /\ (NoDup (map primary_key rows) ->
      (forall r', In r' rows -> ~ In (primary_key r') (map primary_key tbl)) ->
      table first = (tbl ++ rows)%list /\ table second = (tbl ++ rows)%list).
Proof.
  intros rows first second at_r.
  assert (Hsecond : table second = table first /\ trace second = map skip rows).
  { apply load_all_stored. intros r' Hr'. now apply load_stores_all. }
  split; [apply load_never_aborts|].
  split; [apply load_attempts_all|].
  split; [|split].
  - intros Hs. unfold first, rows.
    destruct (load_app before (r :: after) tbl) as [-> ->].
    fold at_r. rewrite load_cons, Hs. now split.
  - intros Hn. split; [apply load_never_aborts|].
    split; [apply Hsecond|]. split; [apply Hsecond|].
    intros r' Hr'. destruct Hsecond as [-> _].
    apply NoDup_count_occ'.
    + now apply load_keeps_keys_unique.
    + now apply load_stores_all.
  - intros Hn Hf. destruct Hsecond as [-> _]. unfold first.
    destruct (load_all_fresh rows tbl Hn Hf) as [-> _]. now split.
Qed.

End LoaderProperties.

Lemma load_skips_duplicates_witness :
  trace (to_access_rows fst Nat.eq_dec fst "CDP"
           [(1, "a"); (2, "b"); (1, "c")] [])
  = [Inserted (1, "a"); Inserted (2, "b"); Skipped (1, "c") "CDP" 1]
  /\ table (to_access_rows fst Nat.eq_dec fst "CDP"
              [(1, "a"); (2, "b"); (1, "c")]
              (table (to_access_rows fst Nat.eq_dec fst "CDP"
                        [(1, "a"); (2, "b"); (1, "c")] [])))
     = [(1, "a"); (2, "b")].
Proof.
  destruct (load_skips_duplicates (nat * string) nat nat fst Nat.eq_dec fst
              "CDP" [(1, "a"); (2, "b")] (1, "c") [] [])
    as (_ & _ & Hskip & Htwice & _).
  split.
  - apply Hskip. reflexivity.
  - destruct Htwice as (_ & -> & _); [constructor | reflexivity].
Defined.

(** ** FixedWidthTableParser *)

(** A search for a run of white space, one character at a time. *)
Lemma search_space_empty pos : re_search_from [plus is_space] pos "" = None.
Proof. reflexivity. Qed.

Lemma search_space_cons c s pos :
  re_search_from [plus is_space] pos (String c s) =
  if is_space c then Some (pos, ([], after_leading is_space s))
  else re_search_from [plus is_space] (S pos) s.
Proof.
  change (re_search_from [plus is_space] pos (String c s))
    with (match re_match [plus is_space] pos None [] (String c s) with
          | Some r => Some (pos, r)
          | None => re_search_from [plus is_space] (S pos) s
          end).
  unfold plus. rewrite re_match_rep_last by (intros; discriminate).
  unfold greedy. simpl run_length. destruct (is_space c); reflexivity.
Qed.

(** Inside a run, the pass goes on to the end of the run. *)
Lemma ws_run_starts_in_run : forall s pos,
  ws_run_starts true pos s
  = ws_run_starts false (pos + Z.of_nat (run_length is_space None s))%Z
      (after_leading is_space s).
Proof.
  unfold after_leading.
  induction s as [|c s IH]; intros pos; simpl; [reflexivity|].
  destruct (is_space c) eqn:E.
  - rewrite IH. f_equal. lia.
  - simpl. rewrite E. f_equal. lia.
Qed.

Lemma re_finditer_step fuel items pos s :
  re_finditer (S fuel) items pos s =
  match re_search_from items pos s with
  | None => []
  | Some (start, (groups, rest)) =>
      (start, (groups, rest))
      :: re_finditer fuel items (pos + (length s - length rest)) rest
  end.
Proof. reflexivity. Qed.

(** [re.finditer] on [\s+] finds the runs the one-pass reading finds. *)
Lemma finditer_space_scan : forall fuel s pos,
  length s <= fuel ->
  map (fun m => Z.of_nat (fst m)) (re_finditer fuel [plus is_space] pos s)
  = ws_run_starts false (Z.of_nat pos) s.
Proof.
  induction fuel as [|fuel IHf]; intros s pos Hlen.
  - destruct s; [reflexivity | simpl in Hlen; lia].
  - revert pos Hlen. induction s as [|c s IHs]; intros pos Hlen;
      [reflexivity|].
    rewrite re_finditer_step, search_space_cons.
    simpl ws_run_starts. destruct (is_space c).
    + pose proof (run_length_le is_space s) as Hrun.
      replace (pos + (length (String c s) - length (after_leading is_space s)))
        with (pos + 1 + run_length is_space None s)
        by (unfold after_leading; rewrite length_drop; cbn [length]; lia).
      cbn [map fst]. rewrite IHf.
      * rewrite ws_run_starts_in_run. do 2 f_equal. lia.
      * unfold after_leading. rewrite length_drop. cbn [length] in Hlen. lia.
    + cbn [length] in Hlen.
      replace (Z.of_nat pos + 1)%Z with (Z.of_nat (S pos)) by lia.
      rewrite <- IHs by lia. rewrite re_finditer_step.
      destruct (re_search_from [plus is_space] (S pos) s)
        as [[start [groups rest]]|] eqn:E; [|reflexivity].
      apply re_search_from_rest in E.
      replace (pos + (length (String c s) - length rest))
        with (S pos + (length s - length rest)) by (cbn [length]; lia).
      reflexivity.
Qed.

Lemma whitespace_starts_scan header :
  whitespace_starts header = ws_run_starts false 0 header.
Proof. apply finditer_space_scan. lia. Qed.

Local Open Scope Z_scope.

Lemma differences_cons a b l :
  differences (a :: b :: l) = (b - a) :: differences (b :: l).
Proof. reflexivity. Qed.

Lemma last_default {A : Type} (l : list A) : forall a d d',
  last (a :: l) d = last (a :: l) d'.
Proof.
  induction l as [|b l IH]; intros a d d'; [reflexivity|].
  change (last (b :: l) d = last (b :: l) d'). apply IH.
Qed.

Lemma last_cons {A : Type} (l : list A) b a : last (b :: l) a = last l b.
Proof.
  destruct l as [|c l]; [reflexivity|].
  change (last (c :: l) a = last (c :: l) b). apply last_default.
Qed.

(** The differences telescope. *)
Lemma sum_differences : forall l a,
  sum_widths (differences (a :: l)) = last l a - a.
Proof.
  induction l as [|b l IH]; intros a.
  - simpl. lia.
  - rewrite differences_cons. simpl sum_widths. fold (sum_widths (differences (b :: l))).
    rewrite IH, (last_cons l b a). lia.
Qed.

Lemma nth_differences : forall l i,
  (S i < List.length l)%nat ->
  nth i (differences l) 0 = nth (S i) l 0 - nth i l 0.
Proof.
  induction l as [|a [|b l] IH]; intros i Hi; simpl in Hi; try lia.
  rewrite differences_cons. destruct i as [|i]; [reflexivity|].
  simpl nth at 1. rewrite IH by (simpl; lia). reflexivity.
Qed.

(** A line whose last character alone is trailing white space has its
    last run at that character. *)
Lemma ws_run_starts_last t b : forall body in_run pos,
  is_space t = true -> last_char body = Some b -> is_space b = false ->
  exists init,
    ws_run_starts in_run pos (body ++ String t "")
    = (init ++ [pos + Z.of_nat (length body)])%list.
Proof.
  induction body as [|c body IH]; intros in_run pos Ht Hb Hsp; [discriminate|].
  destruct body as [|c' body].
  - simpl in Hb. injection Hb as ->. simpl. rewrite Hsp, Ht.
    now exists []%list.
  - assert (Hb' : last_char (String c' body) = Some b) by exact Hb.
    change ((String c (String c' body)) ++ String t "")
      with (String c (String c' body ++ String t "")).
    cbn [ws_run_starts].
    replace (pos + Z.of_nat (length (String c (String c' body))))
      with (pos + 1 + Z.of_nat (length (String c' body)))
      by (cbn [length]; lia).
    destruct (is_space c); [destruct in_run|].
    + apply IH; assumption.
    + destruct (IH true (pos + 1) Ht Hb' Hsp) as [init ->].
      now exists (pos :: init)%list.
    + apply IH; assumption.
Qed.

Lemma ws_run_starts_first c s :
  is_space c = true ->
  ws_run_starts false 0 (String c s) = 0 :: ws_run_starts true 1 s.
Proof. intros H. simpl. now rewrite H. Qed.

(** C3, as the claim states it, fails.  The widths of a header of three
    names, one run of blanks after each, add up to 7, which is neither
    the length of the line nor its length without the terminator; with
    the names to the right of their blanks the widths add up to the
    length of the line, terminator included, not to the length of its
    text. *)
Lemma widths_sum_is_not_header_length :
  _widths_skiprows ["<< geometry" ++ newline; "STATION  X  Y" ++ newline;
                    "1        10 20" ++ newline]
  = Returns ([4; 3], 1%nat)
  /\ sum_widths [4; 3] <> Z.of_nat (length ("STATION  X  Y" ++ newline))
  /\ sum_widths [4; 3]
     <> Z.of_nat (length (rstrip ("STATION  X  Y" ++ newline)))
  /\ header_widths (" STATION  X  Y" ++ newline) = Returns [9; 3; 3]
  /\ sum_widths [9; 3; 3]
     <> Z.of_nat (length (rstrip (" STATION  X  Y" ++ newline))).
Proof. repeat split; try reflexivity; intros H; discriminate H. Qed.

(** C3, amended.  For a header line with at least two runs of white
    space, the widths are the differences between the start offsets of
    consecutive runs, the first one widened by one, and they add up to
    the distance from the first run's start to the last run's start,
    plus one.  That is the length of the line, terminator included,
    when the line begins with white space and its last character alone
    is its trailing white space. *)
Theorem widths_from_run_starts doc n header s0 s1 rest :
  _skiprows_header_after doc "<<" = Returns (Some (n, header)) ->
  whitespace_starts header = s0 :: s1 :: rest ->
  let starts := s0 :: s1 :: rest in
  exists d0 ds,
    differences starts = d0 :: ds
    /\ (forall i, (S i < List.length starts)%nat ->
          nth i (differences starts) 0 = nth (S i) starts 0 - nth i starts 0)
    /\ _widths_skiprows doc = Returns ((d0 + 1) :: ds, n)
    /\ sum_widths ((d0 + 1) :: ds) = last starts 0 - s0 + 1
    /\ (forall body b t,
          header = (body ++ String t "")%string ->
          is_space t = true -> last_char body = Some b -> is_space b = false ->
          starts_with is_space header = true ->
          sum_widths ((d0 + 1) :: ds) = Z.of_nat (length header)).
Proof.
  intros Hloc Hstarts starts.
  assert (Hsum : sum_widths ((s1 - s0 + 1) :: differences (s1 :: rest))
                 = last starts 0 - s0 + 1).
  { pose proof (sum_differences (s1 :: rest) s0) as H.
    rewrite differences_cons in H. simpl sum_widths in *.
    unfold starts. rewrite (last_cons (s1 :: rest) s0 0). lia. }
  exists (s1 - s0), (differences (s1 :: rest)).
  split; [reflexivity|]. split; [apply nth_differences|].
  split; [|split; [exact Hsum|]].
  - unfold _widths_skiprows. rewrite Hloc. simpl.
    unfold header_widths. now rewrite Hstarts.
  - intros body b t Hh Ht Hb Hsp Hfirst. rewrite Hsum.
    rewrite whitespace_starts_scan in Hstarts.
    destruct (ws_run_starts_last t b body false 0 Ht Hb Hsp) as [init Hlast].
    rewrite <- Hh, Hstarts in Hlast. unfold starts. rewrite Hlast, last_last.
    destruct header as [|c header]; [discriminate|].
    rewrite (ws_run_starts_first c header Hfirst) in Hstarts.
    injection Hstarts as <- _.
    rewrite Hh, length_append. simpl. lia.
Qed.

Lemma widths_from_run_starts_witness :
  exists d0 ds,
    _widths_skiprows ["<< geometry" ++ newline; " STATION  X  Y" ++ newline;
                      "       1 10 20" ++ newline]
    = Returns ((d0 + 1) :: ds, 1%nat)
    /\ sum_widths ((d0 + 1) :: ds) = 14 - 0 + 1
    /\ sum_widths ((d0 + 1) :: ds)
       = Z.of_nat (length (" STATION  X  Y" ++ newline)).
Proof.
  destruct (widths_from_run_starts
              ["<< geometry" ++ newline; " STATION  X  Y" ++ newline;
               "       1 10 20" ++ newline]
              1%nat (" STATION  X  Y" ++ newline) 0 8 [11; 14]
              eq_refl eq_refl)
    as (d0 & ds & _ & _ & Hw & Hsum & Hlen).
  exists d0, ds. split; [exact Hw|]. split; [exact Hsum|].
  apply (Hlen " STATION  X  Y" "Y"%char "010"%char); reflexivity.
Defined.

Local Close Scope Z_scope.

(** * Further properties of the source *)

(** ** NameNormalizer: which names are accepted *)

(** X1.  [normNameLine] returns a name exactly for the texts that begin
    with [letters [sep] digits [sep+] digits], whatever follows, and
    [normNameArea] exactly for those that begin with
    [letters [sep+] digits]; on every other text they return [None]. *)
Theorem normalisers_accept x :
  ((exists y, normNameLine x = Some y) <->
   exists name s1 ano s2 num rest,
     x = name ++ s1 ++ ano ++ s2 ++ num ++ rest
     /\ line_shaped name s1 ano s2 num)
  /\ ((exists y, normNameArea x = Some y) <->
      exists name s1 ano rest,
        x = name ++ s1 ++ ano ++ rest /\ area_shaped name s1 ano).
Proof.
  split; split.
  - intros [y H]. apply normNameLine_inv in H
      as (name & s1 & ano & s2 & num & rest & Hx & Hs & _).
    now exists name, s1, ano, s2, num, rest.
  - intros (name & s1 & ano & s2 & num & rest & -> & Hs).
    unfold normNameLine. rewrite (pline_search_extra _ _ _ _ _ _ Hs).
    now eexists.
  - intros [y H]. apply normNameArea_inv in H
      as (name & s1 & ano & rest & Hx & Hs & _).
    now exists name, s1, ano, rest.
  - intros (name & s1 & ano & rest & -> & Hs).
    unfold normNameArea. rewrite (parea_search_extra _ _ _ _ Hs).
    now eexists.
Qed.

(** ** NameNormalizer: the case of the input *)

Lemma upper_char_alpha_iff c : is_alpha (upper_char c) = is_alpha c.
Proof. by_ascii_cases c. Qed.

Lemma upper_char_digit_iff c : is_digit (upper_char c) = is_digit c.
Proof. by_ascii_cases c. Qed.

Lemma upper_char_sep_iff c : is_sep (upper_char c) = is_sep c.
Proof. by_ascii_cases c. Qed.

Section UpperRuns.
Variable cls : ascii -> bool.
Hypothesis cls_upper : forall c, cls (upper_char c) = cls c.

Lemma run_length_upper s :
  run_length cls None (upper s) = run_length cls None s.
Proof.
  induction s as [|c s IH]; simpl; [reflexivity|].
  rewrite cls_upper. destruct (cls c); [now rewrite IH | reflexivity].
Qed.

Lemma take_upper : forall n s, take n (upper s) = upper (take n s).
Proof.
  induction n as [|n IH]; intros [|c s]; simpl; try reflexivity.
  now rewrite IH.
Qed.

Lemma drop_upper : forall n s, drop n (upper s) = upper (drop n s).
Proof.
  induction n as [|n IH]; intros [|c s]; simpl; try reflexivity.
  apply IH.
Qed.

Lemma greedy_upper lo s :
  greedy cls lo (upper s) =
  match greedy cls lo s with
  | Some (g, s') => Some (upper g, upper s')
  | None => None
  end.
Proof.
  unfold greedy. rewrite run_length_upper, take_upper, drop_upper.
  now destruct (run_length cls None s <? lo).
Qed.

End UpperRuns.

Lemma pline_greedy_upper s :
  pline_greedy (upper s) =
  match pline_greedy s with
  | Some (gs, rest) => Some (map upper gs, upper rest)
  | None => None
  end.
Proof.
  unfold pline_greedy.
  rewrite (greedy_upper is_alpha upper_char_alpha_iff).
  destruct (greedy is_alpha 1 s) as [[name t1]|]; [|reflexivity].
  rewrite (greedy_upper is_sep upper_char_sep_iff).
  destruct (greedy is_sep 0 t1) as [[s1 t2]|]; [|reflexivity].
  rewrite (greedy_upper is_digit upper_char_digit_iff).
  destruct (greedy is_digit 1 t2) as [[ano t3]|]; [|reflexivity].
  rewrite (greedy_upper is_sep upper_char_sep_iff).
  destruct (greedy is_sep 1 t3) as [[s2 t4]|]; [|reflexivity].
  rewrite (greedy_upper is_digit upper_char_digit_iff).
  now destruct (greedy is_digit 1 t4) as [[num t5]|].
Qed.

Lemma parea_greedy_upper s :
  parea_greedy (upper s) =
  match parea_greedy s with
  | Some (gs, rest) => Some (map upper gs, upper rest)
  | None => None
  end.
Proof.
  unfold parea_greedy.
  rewrite (greedy_upper is_alpha upper_char_alpha_iff).
  destruct (greedy is_alpha 1 s) as [[name t1]|]; [|reflexivity].
  rewrite (greedy_upper is_sep upper_char_sep_iff).
  destruct (greedy is_sep 1 t1) as [[s1 t2]|]; [|reflexivity].
  rewrite (greedy_upper is_digit upper_char_digit_iff).
  now destruct (greedy is_digit 1 t2) as [[ano t3]|].
Qed.

Lemma normNameLine_upper x : normNameLine (upper x) = normNameLine x.
Proof.
  unfold normNameLine. rewrite !pline_search_greedy, pline_greedy_upper.
  destruct (pline_greedy x) as [[gs rest]|] eqn:E; [|reflexivity].
  apply pline_greedy_inv in E
    as (name & s1 & ano & s2 & num & -> & _ & Hs & _).
  destruct Hs as (_ & _ & Ha & _ & _ & Hn). cbn [map].
  rewrite (upper_digits ano) by apply Ha.
  rewrite (upper_digits num) by apply Hn.
  rewrite !upper_line by assumption. now rewrite upper_idem.
Qed.

Lemma normNameArea_upper x : normNameArea (upper x) = normNameArea x.
Proof.
  unfold normNameArea. rewrite !parea_search_greedy, parea_greedy_upper.
  destruct (parea_greedy x) as [[gs rest]|] eqn:E; [|reflexivity].
  apply parea_greedy_inv in E as (name & s1 & ano & -> & _ & Hs & _).
  destruct Hs as (_ & _ & _ & Ha). cbn [map].
  rewrite (upper_digits ano) by apply Ha.
  rewrite !upper_area by assumption. now rewrite upper_idem.
Qed.

(** X2.  The case of the input plays no part: two ASCII texts that are
    equal once upper-cased are normalised alike, to the same name or
    both to nothing, by [normNameLine] and by [normNameArea]. *)
Theorem normalisers_ignore_case x x' :
  all_of is_ascii x = true -> all_of is_ascii x' = true ->
  upper x = upper x' ->
  normNameLine x = normNameLine x' /\ normNameArea x = normNameArea x'.
Proof.
  intros _ _ H. split.
  - now rewrite <- (normNameLine_upper x), H, normNameLine_upper.
  - now rewrite <- (normNameArea_upper x), H, normNameArea_upper.
Qed.

Lemma normalisers_ignore_case_witness :
  normNameLine "Abc_87_1234" = normNameLine "aBC_87_1234"
  /\ normNameArea "Abc_87_1234" = normNameArea "aBC_87_1234".
Proof.
  apply (normalisers_ignore_case "Abc_87_1234" "aBC_87_1234");
    reflexivity.
Defined.

(** ** NameNormalizer: one normaliser after the other *)

(** X3.  A name [normNameLine] returns is accepted by [normNameArea],
    which keeps its [NAME-YEAR] and drops the number; a name
    [normNameArea] returns is never accepted by [normNameLine]. *)
Theorem normalisers_compose xl yl xa ya :
  (normNameLine xl = Some yl ->
   exists name year num,
     canonical_line yl name year num
     /\ normNameArea yl = Some (name ++ "-" ++ year))
  /\ (normNameArea xa = Some ya -> normNameLine ya = None).
Proof.
  split.
  - intros H. apply normNameLine_inv in H
      as (name & s1 & ano & s2 & num & rest & _ & Hs & _ & ->).
    destruct Hs as (Hn & _ & Ha & _ & _ & Hm).
    exists (upper name), (_chano ano), num. split.
    + repeat split; try apply (upper_letters_upper _ Hn);
        try apply (digits_chano _ Ha); apply Hm.
    + rewrite (normNameArea_shaped (upper name) "-" (_chano ano) ("-" ++ num)).
      * now rewrite upper_idem.
      * repeat split; try apply (digits_chano _ Ha);
          apply upper_letters_letters, upper_letters_upper, Hn.
      * reflexivity.
  - intros H. apply normNameArea_inv in H
      as (name & s1 & ano & rest & _ & (Hn & _ & _ & [Ha Ha']) & _ & ->).
    destruct (upper_letters_letters _ (upper_letters_upper _ Hn)) as [Hu Hu'].
    unfold normNameLine. rewrite pline_search_greedy. unfold pline_greedy.
    rewrite (greedy_append is_alpha 1 (upper name) ("-" ++ ano));
      [|assumption|reflexivity|now apply is_empty_length].
    rewrite (greedy_append is_sep 0 "-" ano);
      [|reflexivity| |simpl; lia].
    2:{ apply (starts_with_other _ is_digit); class_facts. }
    rewrite <- (append_empty_r ano) at 1.
    rewrite (greedy_append is_digit 1 ano "");
      [reflexivity|assumption|reflexivity|now apply is_empty_length].
Qed.

Lemma normalisers_compose_witness :
  (exists name year num,
     canonical_line "ABC-1987-1234" name year num
     /\ normNameArea "ABC-1987-1234" = Some (name ++ "-" ++ year))
  /\ normNameLine "XYZ-99" = None.
Proof.
  split.
  - apply (proj1 (normalisers_compose
                    "abc_87_1234" "ABC-1987-1234" "xyz-99" "XYZ-99")).
    reflexivity.
  - apply (proj2 (normalisers_compose
                    "abc_87_1234" "ABC-1987-1234" "xyz-99" "XYZ-99")).
    reflexivity.
Defined.

(** ** HeaderLocator: when the marker is found *)

Lemma before_loop_found mark h m post : forall pre rold n,
  (forall r, In r pre -> marked mark r = false) ->
  marked mark h = false -> marked mark m = true ->
  _skiprows_header_before_loop mark rold n (pre ++ h :: m :: post)
  = Returns (Some (n + List.length pre + 1, h)).
Proof.
  induction pre as [|r pre IH]; intros rold n Hpre Hh Hm; simpl.
  - rewrite Hh. simpl. rewrite Hm. do 3 f_equal. lia.
  - rewrite (Hpre r) by now left.
    rewrite IH; [do 3 f_equal; lia| |assumption|assumption].
    intros r' Hr'. apply Hpre. now right.
Qed.

Lemma after_loop_found mark m : forall pre n,
  (forall r, In r pre -> marked mark r = false) -> marked mark m = true ->
  (forall h post,
     _skiprows_header_after_loop mark false n (pre ++ m :: h :: post)
     = Returns (Some (n + List.length pre + 1, h)))
  /\ _skiprows_header_after_loop mark false n (pre ++ [m]) = Returns None.
Proof.
  induction pre as [|r pre IH]; intros n Hpre Hm; simpl.
  - rewrite Hm. split; [|reflexivity]. intros h post. do 3 f_equal. lia.
  - rewrite (Hpre r) by now left.
    destruct (IH (S n)) as [IH1 IH2]; [|assumption|].
    + intros r' Hr'. apply Hpre. now right.
    + split; [|exact IH2]. intros h post. rewrite IH1. do 3 f_equal. lia.
Qed.

(** X4.  [_skiprows_header_before] stops at the first line that begins
    with the marker and returns its index with the line just before it.
    When the very first line of the file begins with the marker there
    is no line before it: the name [rold] is still unbound and the call
    leaves with an [UnboundLocalError]. *)
Theorem header_before_first_marked mark pre h m post :
  (forall r, In r pre -> marked mark r = false) ->
  marked mark h = false -> marked mark m = true ->
  _skiprows_header_before (pre ++ h :: m :: post) mark
  = Returns (Some (List.length pre + 1, h))
  /\ _skiprows_header_before (m :: post) mark = Raises UnboundLocalError.
Proof.
  intros Hpre Hh Hm. split.
  - unfold _skiprows_header_before. now rewrite before_loop_found.
  - unfold _skiprows_header_before. simpl. now rewrite Hm.
Qed.

Lemma header_before_first_marked_witness :
  _skiprows_header_before
    ["# geometry" ++ newline; "STATION X_COORD" ++ newline;
     "<   1|10" ++ newline; "<   2|20" ++ newline] "<"
  = Returns (Some (2, "STATION X_COORD" ++ newline))
  /\ _skiprows_header_before
       ["<   1|10" ++ newline; "<   2|20" ++ newline] "<"
     = Raises UnboundLocalError.
Proof.
  apply (header_before_first_marked "<" ["# geometry" ++ newline]
           ("STATION X_COORD" ++ newline) ("<   1|10" ++ newline)
           ["<   2|20" ++ newline]).
  - intros r [<-|[]]. reflexivity.
  - reflexivity.
  - reflexivity.
Defined.

(** X5.  [_skiprows_header_after] stops one line after the first line
    that begins with the marker and returns that next line with its
    index, marked or not.  When the first marked line is the last line
    of the file there is no next line and [None] is returned. *)
Theorem header_after_first_marked mark pre m h post :
  (forall r, In r pre -> marked mark r = false) -> marked mark m = true ->
  _skiprows_header_after (pre ++ m :: h :: post) mark
  = Returns (Some (List.length pre + 1, h))
  /\ _skiprows_header_after (pre ++ [m]) mark = Returns None.
Proof.
  intros Hpre Hm. unfold _skiprows_header_after.
  destruct (after_loop_found mark m pre 0 Hpre Hm) as [H1 H2].
  split; [apply H1 | exact H2].
Qed.

Lemma header_after_first_marked_witness :
  _skiprows_header_after
    ["# geometry" ++ newline; "<< columns" ++ newline;
     " STATION  X  Y" ++ newline; "       1 10 20" ++ newline] "<<"
  = Returns (Some (2, " STATION  X  Y" ++ newline))
  /\ _skiprows_header_after
       ["# geometry" ++ newline; "<< columns" ++ newline] "<<"
     = Returns None.
Proof.
  apply (header_after_first_marked "<<" ["# geometry" ++ newline]
           ("<< columns" ++ newline) (" STATION  X  Y" ++ newline)
           ["       1 10 20" ++ newline]).
  - intros r [<-|[]]. reflexivity.
  - reflexivity.
Defined.

(** ** FixedWidthTableParser: how many widths, and how wide *)

Local Open Scope Z_scope.

Lemma length_differences l :
  List.length (differences l) = (List.length l - 1)%nat.
Proof.
  unfold differences. rewrite length_map, length_combine.
  destruct l as [|a l]; cbn [tl List.length]; lia.
Qed.

(** Two runs of white space have a character that is not white space
    between them: their starts are at least two apart. *)
Lemma ws_run_starts_gaps : forall s in_run pos,
  Forall (fun d => 2 <= d) (differences (ws_run_starts in_run pos s))
  /\ (forall x, In x (ws_run_starts in_run pos s) ->
        (if in_run then pos + 1 else pos) <= x).
Proof.
  induction s as [|c s IH]; intros in_run pos; simpl.
  - split; [constructor | intros x []].
  - destruct (is_space c).
    + destruct in_run.
      * destruct (IH true (pos + 1)) as [Hd Hb]. split; [exact Hd|].
        intros x Hx. apply Hb in Hx. lia.
      * destruct (IH true (pos + 1)) as [Hd Hb].
        destruct (ws_run_starts true (pos + 1) s) as [|b l] eqn:E.
        -- split; [constructor|]. intros x [<-|[]]. lia.
        -- rewrite differences_cons. split.
           ++ constructor; [|exact Hd]. specialize (Hb b (or_introl eq_refl)). lia.
           ++ intros x [<-|Hx]; [lia|]. apply Hb in Hx. lia.
    + destruct (IH false (pos + 1)) as [Hd Hb]. split; [exact Hd|].
      intros x Hx. apply Hb in Hx. destruct in_run; lia.
Qed.

(** X6.  [_widths_skiprows] needs a header with at least two runs of
    white space: with fewer the list of differences is empty and
    [w[0]] is an [IndexError].  Otherwise it returns one width fewer
    than there are runs, each of them at least 2 (the first at least
    3), with the row index the locator gave. *)
Theorem widths_count_and_size doc n header :
  _skiprows_header_after doc "<<" = Returns (Some (n, header)) ->
  ((List.length (whitespace_starts header) < 2)%nat ->
   _widths_skiprows doc = Raises IndexError)
  /\ ((2 <= List.length (whitespace_starts header))%nat ->
      exists w0 ws,
        _widths_skiprows doc = Returns (w0 :: ws, n)
        /\ S (List.length (w0 :: ws)) = List.length (whitespace_starts header)
        /\ 3 <= w0 /\ Forall (fun d => 2 <= d) ws).
Proof.
  intros Hloc. unfold _widths_skiprows. rewrite Hloc. simpl.
  unfold header_widths.
  pose proof (length_differences (whitespace_starts header)) as Hlen.
  destruct (ws_run_starts_gaps header false 0) as [Hgap _].
  rewrite <- whitespace_starts_scan in Hgap.
  destruct (differences (whitespace_starts header)) as [|d0 ds];
    simpl in Hlen; split; intros Hn; try lia.
  - reflexivity.
  - exists (d0 + 1), ds. inversion Hgap; subst.
    repeat split; simpl; try lia; assumption.
Qed.

Lemma widths_count_and_size_witness :
  _widths_skiprows ["<< columns" ++ newline; "STATION" ++ newline]
  = Raises IndexError
  /\ exists w0 ws,
       _widths_skiprows ["<< columns" ++ newline; " STATION  X  Y" ++ newline]
       = Returns (w0 :: ws, 1%nat)
       /\ 3 <= w0 /\ Forall (fun d => 2 <= d) ws.
Proof.
  split.
  - apply (proj1 (widths_count_and_size
                    ["<< columns" ++ newline; "STATION" ++ newline]
                    1%nat ("STATION" ++ newline) eq_refl)).
    vm_compute. lia.
  - destruct (proj2 (widths_count_and_size
                       ["<< columns" ++ newline; " STATION  X  Y" ++ newline]
                       1%nat (" STATION  X  Y" ++ newline) eq_refl))
      as (w0 & ws & Hw & _ & H0 & Hs).
    + vm_compute. lia.
    + now exists w0, ws.
Defined.

Local Close Scope Z_scope.

(** ** SchemaInferer: names it cannot read *)

Lemma primary_flag_empty x : is_empty x = true -> primary_flag x = Raises IndexError.
Proof. destruct x; [reflexivity | discriminate]. Qed.

Lemma chname_empty x : is_empty x = true -> _chname x = Raises IndexError.
Proof. destruct x; [reflexivity | discriminate]. Qed.

Lemma map_primary_flag_empty : forall c,
  (exists x, In x c /\ is_empty x = true) ->
  map_outcome primary_flag c = Raises IndexError.
Proof.
  induction c as [|x c IH]; intros (y & Hy & He); [destruct Hy|].
  simpl. destruct (is_empty x) eqn:E.
  - now rewrite primary_flag_empty.
  - rewrite (primary_flag_nonempty x E). simpl.
    rewrite IH; [reflexivity|]. destruct Hy as [<-|Hy]; [congruence|].
    now exists y.
Qed.

(** X7.  [cols] cannot read an empty name or a missing one.  A column
    with the empty name makes it leave with an [IndexError], whatever
    the index is.  With every column named, an index without a name
    makes it leave with a [TypeError], and an index with the empty name
    with an [IndexError]. *)
Theorem cols_unreadable_names df :
  ((exists x, In x (map fst (columns df)) /\ is_empty x = true) ->
   cols df = Raises IndexError)
  /\ ((forall x, In x (map fst (columns df)) -> is_empty x = false) ->
      (index_name df = None -> cols df = Raises TypeError)
      /\ (index_name df = Some "" -> cols df = Raises IndexError)).
Proof.
  split.
  - intros H. unfold cols. now rewrite map_primary_flag_empty.
  - intros Hc.
    assert (Hp : cols df =
                 (i <- match index_name df with
                       | None => Raises TypeError
                       | Some x => _chname x
                       end ;;
                  Returns ((i, _chtype (index_dtype df), "PRIMARY KEY")
                           :: map column_spec_of (columns df)))).
    { unfold cols.
      rewrite (map_outcome_returns primary_flag
                 (fun x => if has_marker x then "PRIMARY KEY" else ""))
        by (intros x Hx; now apply primary_flag_nonempty, Hc).
      simpl. rewrite (map_outcome_returns _chname without_marker)
        by (intros x Hx; now apply chname_nonempty, Hc).
      simpl. destruct (index_name df) as [x|]; [|reflexivity].
      destruct (_chname x); simpl; [|reflexivity].
      now rewrite combine_column_specs. }
    split; intros Hi; rewrite Hp, Hi; reflexivity.
Qed.

(** ** TableLoader: what is sent to the store *)

Lemma field_of_spec xd :
  snd xd <> other_dtype ->
  exists f, field_of (column_spec_of xd) = Returns f.
Proof.
  destruct xd as [x d]. unfold field_of, column_spec_of, spec_type. simpl.
  destruct d; intros H; solve [eexists; reflexivity | now elim H].
Qed.

Lemma map_field_of_returns : forall l,
  (forall xd, In xd l -> snd xd <> other_dtype) ->
  exists fs, map_outcome field_of (map column_spec_of l) = Returns fs
             /\ List.length fs = List.length l.
Proof.
  induction l as [|xd l IH]; intros H; [now exists []|].
  destruct (field_of_spec xd) as [f Hf]; [apply H; now left|].
  destruct IH as (fs & Hfs & Hlen); [intros y Hy; apply H; now right|].
  exists (f :: fs). simpl. rewrite Hf. simpl. rewrite Hfs. simpl.
  split; [reflexivity | now rewrite Hlen].
Qed.

Lemma map_field_of_raises : forall l,
  (exists xd, In xd l /\ snd xd = other_dtype) ->
  map_outcome field_of (map column_spec_of l) = Raises TypeError.
Proof.
  induction l as [|[x d] l IH]; intros (y & Hy & He); [destruct Hy|].
  simpl. destruct d; unfold field_of at 1, column_spec_of at 1; simpl;
    try (rewrite IH; [reflexivity|];
         destruct Hy as [<-|Hy]; [discriminate | now exists y]).
  reflexivity.
Qed.



Lemma cols_unreadable_names_witness :
  cols {| index_name := Some "CDP*"; index_dtype := int64;
          columns := [("X_COORD", float64); ("", float64)] |}
  = Raises IndexError
  /\ cols {| index_name := None; index_dtype := int64;
             columns := [("X_COORD", float64)] |}
     = Raises TypeError.
Proof.
  split.
  - apply (proj1 (cols_unreadable_names
                    {| index_name := Some "CDP*"; index_dtype := int64;
                       columns := [("X_COORD", float64); ("", float64)] |})).
    exists "". split; [right; now left | reflexivity].
  - apply (proj2 (cols_unreadable_names
                    {| index_name := None; index_dtype := int64;
                       columns := [("X_COORD", float64)] |})).
    + intros x [<-|[]]. reflexivity.
    + reflexivity.
Defined.

(** ** TableLoader: an error the loop does not catch *)

Section LoopErrors.
Variables row index : Type.
Variable index_value : row -> index.
Variable execute : list row -> row -> exec_result row.
Variable c0 : string.

#[local] Abbreviation run := (to_access_loop index_value execute c0).

Lemma run_done : forall rows tbl done,
  run rows tbl done
  = {| trace := done ++ trace (run rows tbl []);
       table := table (run rows tbl []);
       aborted := aborted (run rows tbl []) |}.
Proof.
  induction rows as [|r rows IH]; intros tbl done; simpl.
  - now rewrite app_nil_r.
  - destruct (execute tbl r) as [tbl'| |].
    + rewrite (IH tbl' (done ++ [Inserted r])%list), (IH tbl' [Inserted r]).
      simpl. now rewrite <- app_assoc.
    + rewrite (IH tbl (done ++ [Skipped r c0 (index_value r)])%list),
        (IH tbl [Skipped r c0 (index_value r)]).
      simpl. now rewrite <- app_assoc.
    + simpl. now rewrite app_nil_r.
Qed.

(** The rows of the trace are the rows up to the one the loop stopped
    at, all of them when it did not stop. *)
Lemma run_attempts_prefix : forall rows tbl,
  exists rest,
    rows = (map step_row (trace (run rows tbl [])) ++ rest)%list
    /\ (aborted (run rows tbl []) = false -> rest = []).
Proof.
  induction rows as [|r rows IH]; intros tbl; [now exists []|].
  simpl. destruct (execute tbl r) as [tbl'| |].
  - rewrite run_done. simpl. destruct (IH tbl') as (rest & Hr & Ha).
    exists rest. split; [now rewrite <- Hr | exact Ha].
  - rewrite run_done. simpl. destruct (IH tbl) as (rest & Hr & Ha).
    exists rest. split; [now rewrite <- Hr | exact Ha].
  - exists (r :: rows). split; [reflexivity | discriminate].
Qed.

Lemma run_app : forall a b tbl,
  aborted (run a tbl []) = false ->
  run (a ++ b) tbl []
  = {| trace := trace (run a tbl []) ++ trace (run b (table (run a tbl [])) []);
       table := table (run b (table (run a tbl [])) []);
       aborted := aborted (run b (table (run a tbl [])) []) |}.
Proof.
  induction a as [|r a IH]; intros b tbl Ha.
  - simpl. now destruct (run b tbl []).
  - simpl in *. destruct (execute tbl r) as [tbl'| |].
    + rewrite run_done in Ha. simpl in Ha.
      rewrite run_done, (IH b tbl' Ha). simpl.
      now rewrite (run_done a tbl' [Inserted r]).
    + rewrite run_done in Ha. simpl in Ha.
      rewrite run_done, (IH b tbl Ha). simpl.
      now rewrite (run_done a tbl [Skipped r c0 (index_value r)]).
    + discriminate.
Qed.

(** X9.  The insertion loop of [to_access] catches [IntegrityError]
    alone.  At the first row on which the store raises anything else
    the call leaves: the rows before it have been inserted or skipped,
    that row and the rows after it are not, and nothing more is
    printed.  Whatever the store answers, the rows attempted are an
    initial part of the rows, and all of them when the loop ends
    without such an error. *)
Theorem to_access_loop_stops_at_error before r after tbl :
  aborted (run before tbl []) = false ->
  execute (table (run before tbl [])) r = OtherError ->
  run (before ++ r :: after) tbl []
  = {| trace := trace (run before tbl []);
       table := table (run before tbl []);
       aborted := true |}
  /\ map step_row (trace (run before tbl [])) = before
  /\ (forall rows tbl',
        exists rest,
          rows = (map step_row (trace (run rows tbl' [])) ++ rest)%list
          /\ (aborted (run rows tbl' []) = false -> rest = [])).
Proof.
  intros Ha He. split; [|split].
  - rewrite (run_app before (r :: after) tbl Ha). simpl. rewrite He.
    simpl. now rewrite app_nil_r.
  - destruct (run_attempts_prefix before tbl) as (rest & Hr & Hrest).
    rewrite (Hrest Ha), app_nil_r in Hr. now symmetry.
  - apply run_attempts_prefix.
Qed.

End LoopErrors.

Lemma to_access_loop_stops_at_error_witness :
  to_access_loop fst
    (fun tbl r => if fst r =? 0 then OtherError
                  else keyed_insert fst Nat.eq_dec tbl r)
    "CDP" [(1, "a"); (1, "b"); (0, "c"); (2, "d")] [] []
  = {| trace := [Inserted (1, "a"); Skipped (1, "b") "CDP" 1];
       table := [(1, "a")];
       aborted := true |}.
Proof.
  apply (proj1 (to_access_loop_stops_at_error (nat * string) nat fst
                  (fun tbl r => if fst r =? 0 then OtherError
                                else keyed_insert fst Nat.eq_dec tbl r)
                  "CDP" [(1, "a"); (1, "b")] (0, "c") [(2, "d")] []
                  eq_refl eq_refl)).
Defined.

(** ** MetadataExtractor: the key as a caseless literal *)

Lemma re_match_one_empty cls k pos cur done :
  re_match (one cls :: k) pos cur done "" = None.
Proof. reflexivity. Qed.

(** A match of the escaped key reads the key, up to case, and then
    goes on with what follows the key in the pattern. *)
Lemma re_match_escaped_inv k r : forall target pos done s,
  re_match (escaped target ++ k) pos None done s = Some r ->
  exists key s',
    s = key ++ s' /\ caseless target key = true
    /\ re_match k (pos + length key) None done s' = Some r.
Proof.
  induction target as [|p t IH]; intros pos done s H.
  - exists "", s. simpl. rewrite Nat.add_0_r. now repeat split.
  - change (re_match (one (is_lit_nocase p) :: (escaped t ++ k)%list)
              pos None done s = Some r) in H.
    destruct s as [|c s]; [discriminate|].
    rewrite re_match_one in H. destruct (is_lit_nocase p c) eqn:Hc;
      [|discriminate].
    simpl capture in H. apply IH in H as (key & s' & -> & Hk & H).
    exists (String c key), s'. simpl. rewrite Hc, Hk.
    repeat split. now replace (pos + S (length key)) with (pos + 1 + length key)
      by lia.
Qed.

(** A search that succeeds matched at some place of the subject. *)
Lemma re_search_from_inv items r start : forall s pos,
  re_search_from items pos s = Some (start, r) ->
  exists before rest,
    s = before ++ rest /\ re_match items start None [] rest = Some r.
Proof.
  induction s as [|c s IH]; intros pos; simpl;
    destruct (re_match items pos None [] _) eqn:E.
  - intros H. injection H as <- <-. now exists "", "".
  - discriminate.
  - intros H. injection H as <- <-. now exists "", (String c s).
  - intros H. apply IH in H as (before & rest & -> & H).
    now exists (String c before), rest.
Qed.

(** A pattern that matches at some place of the subject is found. *)
Lemma re_search_from_found items rest :
  (forall pos, re_match items pos None [] rest <> None) ->
  forall before pos, re_search_from items pos (before ++ rest) <> None.
Proof.
  intros Hm. induction before as [|c before IH]; intros pos.
  - simpl. specialize (Hm pos).
    destruct rest; simpl; destruct (re_match items pos None [] _);
      try discriminate; now elim Hm.
  - simpl. destruct (re_match items pos None [] _); [discriminate|].
    apply IH.
Qed.

(** [re.search] for an escaped key under [re.I] is a caseless search
    for the key as a part of the name. *)
Lemma name_has_spec target x :
  name_has target x = true <-> contains_caseless target x.
Proof.
  unfold name_has, re_search, contains_caseless. split.
  - destruct (re_search_from (escaped target) 0 x) as [[start r]|] eqn:E;
      [|discriminate].
    intros _. apply re_search_from_inv in E as (before & rest & -> & H).
    rewrite <- (app_nil_r (escaped target)) in H.
    apply re_match_escaped_inv in H as (key & s' & -> & Hk & _).
    now exists before, key, s'.
  - intros (before & key & after & -> & Hk).
    assert (Hm : forall pos,
              re_match (escaped target) pos None [] (key ++ after) <> None).
    { intros pos.
      rewrite <- (app_nil_r (escaped target)),
        (re_match_escaped [] target key pos [] after Hk).
      discriminate. }
    pose proof (re_search_from_found _ _ Hm before 0) as H.
    destruct (re_search_from (escaped target) 0 (before ++ key ++ after));
      [reflexivity | now elim H].
Qed.

Lemma matching_columns_none target : forall c n,
  (forall x, In x c -> name_has target x = false) ->
  matching_columns target n c = [].
Proof.
  induction c as [|x c IH]; intros n H; simpl; [reflexivity|].
  rewrite (H x) by now left. apply IH. intros y Hy. apply H. now right.
Qed.

Lemma matching_columns_first target x post : forall pre n,
  (forall y, In y pre -> name_has target y = false) ->
  name_has target x = true ->
  matching_columns target n (pre ++ x :: post)
  = (n + List.length pre) :: matching_columns target (S (n + List.length pre)) post.
Proof.
  induction pre as [|y pre IH]; intros n Hpre Hx; simpl.
  - rewrite Hx. now rewrite Nat.add_0_r.
  - rewrite (Hpre y) by now left.
    rewrite IH; [|intros z Hz; apply Hpre; now right|assumption].
    now replace (S n + List.length pre) with (n + S (List.length pre)) by lia.
Qed.

Lemma name_has_false target x :
  ~ contains_caseless target x -> name_has target x = false.
Proof.
  intros H. destruct (name_has target x) eqn:E; [|reflexivity].
  now apply name_has_spec in E.
Qed.

(** X10.  [targetInCol] looks for the key anywhere in a column name,
    without regard to case, and returns the first row's value under
    the first column whose name holds it.  When no name holds the key
    it returns [None], also for a table without rows; when a name does
    and the table has no row, reading the first row is an
    [IndexError]. *)
Theorem targetInCol_first_column {V : Type} (df : Frame V) target :
  ((forall x, In x (frame_columns df) -> ~ contains_caseless target x) ->
   targetInCol df target = Returns None)
  /\ (forall pre x post,
        frame_columns df = (pre ++ x :: post)%list ->
        (forall y, In y pre -> ~ contains_caseless target y) ->
        contains_caseless target x ->
        (forall row v,
           frame_iloc0 df = Some row ->
           nth_error row (List.length pre) = Some v ->
           targetInCol df target = Returns (Some v))
        /\ (frame_iloc0 df = None ->
            targetInCol df target = Raises IndexError)).
Proof.
  split.
  - intros H. unfold targetInCol.
    rewrite matching_columns_none; [reflexivity|].
    intros x Hx. now apply name_has_false, H.
  - intros pre x post Hc Hpre Hx. unfold targetInCol. rewrite Hc.
    rewrite matching_columns_first;
      [|intros y Hy; now apply name_has_false, Hpre|now apply name_has_spec].
    simpl. split.
    + intros row v -> Hv. now rewrite Hv.
    + now intros ->.
Qed.

Lemma targetInCol_first_column_witness :
  targetInCol {| frame_columns := ["X_COORD"; "Line_Name"; "LINE"];
                 frame_iloc0 := Some ["10"; "abc-87"; "zz"] |} "LINE"
  = Returns (Some "abc-87")
  /\ targetInCol {| frame_columns := ["X_COORD"; "Line_Name"];
                    frame_iloc0 := @None (list string) |} "line"
     = Raises IndexError.
Proof.
  assert (Hx : forall y, In y ["X_COORD"] -> ~ contains_caseless "LINE" y).
  { intros y [<-|[]] H. apply name_has_spec in H. discriminate H. }
  assert (Hx' : forall y, In y ["X_COORD"] -> ~ contains_caseless "line" y).
  { intros y [<-|[]] H. apply name_has_spec in H. discriminate H. }
  split.
  - refine (proj1 (proj2 (targetInCol_first_column
                            {| frame_columns := ["X_COORD"; "Line_Name"; "LINE"];
                               frame_iloc0 := Some ["10"; "abc-87"; "zz"] |}
                            "LINE")
                     ["X_COORD"] "Line_Name" ["LINE"] eq_refl Hx _)
              ["10"; "abc-87"; "zz"] "abc-87" eq_refl eq_refl).
    apply name_has_spec. reflexivity.
  - refine (proj2 (proj2 (targetInCol_first_column
                            {| frame_columns := ["X_COORD"; "Line_Name"];
                               frame_iloc0 := @None (list string) |}
                            "line")
                     ["X_COORD"] "Line_Name" [] eq_refl Hx' _) eq_refl).
    apply name_has_spec. reflexivity.
Defined.

(** ** MetadataExtractor: the shape of a value *)

Lemma try_down_some_le {A : Type} (k : nat -> option A) lo r : forall n,
  try_down k lo n = Some r -> exists m, m <= n /\ k m = Some r.
Proof.
  induction n as [|n IH]; simpl.
  - destruct (0 <? lo); [discriminate|].
    destruct (k 0) eqn:E; [|discriminate]. intros H. exists 0.
    split; [lia | congruence].
  - destruct (S n <? lo); [discriminate|].
    destruct (k (S n)) eqn:E.
    + intros H. exists (S n). split; [lia | congruence].
    + intros H. apply IH in H as (m & Hm & H). exists m. split; [lia | exact H].
Qed.

Lemma run_length_bounded cls s : forall h, run_length cls (Some h) s <= h.
Proof.
  induction s as [|c s IH]; intros h; simpl; [lia|].
  destruct (cls c); [|lia]. destruct h as [|h]; [lia|].
  specialize (IH h). lia.
Qed.

(** An optional character is taken, or it is not. *)
Lemma re_match_opt_inv cls k pos done s r :
  re_match (opt cls :: k) pos None done s = Some r ->
  (exists c s', s = String c s' /\ re_match k (pos + 1) None done s' = Some r)
  \/ re_match k (pos + 0) None done s = Some r.
Proof.
  unfold opt. simpl. intros H.
  apply try_down_some_le in H as (m & Hm & H).
  pose proof (run_length_bounded cls s 1) as Hb.
  destruct m as [|[|m]]; [| |lia].
  - right. now replace (drop 0 s) with s in H by now destruct s.
  - left. destruct s as [|c s]; [simpl in Hm; lia|]. now exists c, s.
Qed.

(** The group of the metadata pattern holds a run of word characters
    and dashes, and not an empty one. *)
Lemma re_match_value_inv pos done s gs rest :
  re_match [GroupOpen; plus is_word_or_dash; GroupClose; opt is_dquote]
    pos None done s = Some (gs, rest) ->
  exists g, gs = (done ++ [g])%list
            /\ all_of is_word_or_dash g = true /\ is_empty g = false.
Proof.
  unfold plus. rewrite re_match_open, re_match_rep_last.
  - destruct (greedy is_word_or_dash 1 s) as [[g s']|] eqn:E; [|discriminate].
    apply greedy_inv in E as (_ & Hg & _ & Hl).
    rewrite re_match_close. simpl capture. simpl close_group.
    destruct (re_match_opt_last is_dquote (pos + length g) None
                (done ++ [g])%list s') as [r ->].
    intros H. injection H as <- _. exists g.
    repeat split; [exact Hg | now apply is_empty_length].
  - intros p c d t. rewrite re_match_close.
    destruct (re_match_opt_last is_dquote p None (d ++ [close_group c])%list t)
      as [r ->].
    discriminate.
Qed.

Lemma meta_in_line_value target line v :
  meta_in_line target line = Some v ->
  all_of is_word_or_dash v = true /\ is_empty v = false.
Proof.
  unfold meta_in_line, re_search.
  destruct (re_search_from (ptarget target) 0 line) as [[start [gs rest]]|] eqn:E;
    [|discriminate].
  simpl. destruct gs as [|g gs]; [discriminate|]. intros H. injection H as <-.
  apply re_search_from_inv in E as (before & s & _ & H).
  unfold ptarget in H.
  apply re_match_escaped_inv in H as (key & s1 & _ & _ & H).
  unfold star in H. rewrite re_match_rep_greedy in H.
  2:{ intros c t Hc. simpl. now rewrite (space_not_assign c Hc). }
  destruct (greedy is_space 0 s1) as [[w1 s2]|]; [|discriminate].
  simpl capture in H. destruct s2 as [|op s2]; [discriminate|].
  rewrite re_match_one in H. destruct (is_assign op); [|discriminate].
  simpl capture in H. rewrite re_match_rep_greedy in H.
  2:{ intros c t Hc. simpl.
      now rewrite (space_not_dquote c Hc), (space_not_word c Hc). }
  destruct (greedy is_space 0 s2) as [[w2 s3]|]; [|discriminate].
  simpl capture in H.
  apply re_match_opt_inv in H as [(c & s4 & _ & H) | H];
    apply re_match_value_inv in H as (g' & Hg & Hv & He);
    simpl in Hg; injection Hg as <- _; now split.
Qed.

(** X11.  A value [promax2meta] returns is what the pattern captured in
    some line of the file: a run of word characters and dashes, never
    empty, so with no quote, blank or line terminator in it. *)
Theorem promax2meta_value doc target v :
  promax2meta doc target = Some v ->
  all_of is_word_or_dash v = true /\ is_empty v = false
  /\ exists line, In line doc /\ meta_in_line target line = Some v.
Proof.
  induction doc as [|line doc IH]; simpl; [discriminate|].
  destruct (meta_in_line target line) as [v'|] eqn:E.
  - intros H. injection H as <-.
    destruct (meta_in_line_value _ _ _ E) as [Hv He].
    repeat split; try assumption. exists line. split; [now left | exact E].
  - intros H. destruct (IH H) as (Hv & He & l & Hl & Hm).
    repeat split; try assumption. exists l. split; [now right | exact Hm].
Qed.

Lemma promax2meta_value_witness :
  all_of is_word_or_dash "abc-87" = true /\ is_empty "abc-87" = false
  /\ exists line,
       In line ["# geometry" ++ newline;
                "Line = " ++ quoted "abc-87 north" ++ newline]
       /\ meta_in_line "Line" line = Some "abc-87".
Proof.
  apply (promax2meta_value
           ["# geometry" ++ newline;
            "Line = " ++ quoted "abc-87 north" ++ newline] "Line" "abc-87").
  reflexivity.
Defined.
